(** * convert_embeddings_pkl_to_json.py: the embedding extractor, embedded in Rocq

    The development follows [src/convert_embeddings_pkl_to_json.py].  Python
    values loaded from the pickle are an inductive type, Python's [float] is
    the kernel's binary64 [PrimFloat.float], Python's [int] is [Z], and
    every function that can raise returns a [result].  [main] is taken from
    the loaded pickle to the document it dumps: parsing the command line,
    reading the file and writing the JSON stay outside.

    The arithmetic of Python that [PrimFloat] does not provide is written
    with the specification-level floats of the standard library: the
    conversion of an [int], [math.floor], the correctly rounded quotient of
    two [int]s, the cast to [float32]. *)

From Stdlib Require Import ZArith String Ascii DecimalString Bool Lia Floats List
  Permutation Sorted.
Import ListNotations.

(** A decimal float literal stands for the nearest binary64 value, as it does
    in Python. *)
Set Warnings "-inexact-float".

Local Open Scope string_scope.
Local Open Scope list_scope.
Local Open Scope Z_scope.

(** ** Exceptions and the error monad *)

(** The exceptions the program can end with.  [ValueError] keeps its message,
    because the source raises it with two distinct ones; [SystemExit] keeps
    the exit status given to [sys.exit]. *)
Inductive exn : Type :=
| ValueError (msg : string)
| TypeError
| OverflowError
| ZeroDivisionError
| SystemExit (code : Z).

Inductive result (A : Type) : Type :=
| Ok (a : A)
| Raise (e : exn).

Arguments Ok {A} a.
Arguments Raise {A} e.

Definition bind {A B : Type} (r : result A) (k : A -> result B) : result B :=
  match r with
  | Ok a => k a
  | Raise e => Raise e
  end.

Notation "x <- r ;; k" := (bind r (fun x => k))
  (at level 61, r at next level, right associativity).

(** [[f(x) for x in l]]: the elements are evaluated from left to right and
    the first exception ends the comprehension. *)
Fixpoint list_comp {A B : Type} (f : A -> result B) (l : list A) : result (list B) :=
  match l with
  | [] => Ok []
  | x :: l' =>
      y <- f x ;;
      ys <- list_comp f l' ;;
      Ok (y :: ys)
  end.

(** ** Python numbers *)

(** An [int] read as a spec-level float with an unbounded mantissa. *)
Definition sf_of_int (z : Z) : spec_float :=
  match z with
  | Z0 => S754_zero false
  | Zpos p => S754_finite false p 0
  | Zneg p => S754_finite true p 0
  end.

(** [float(z)] for an [int]: rounded to nearest even, [OverflowError] when
    the rounded value leaves the binary64 range. *)
Definition float_of_int (z : Z) : result float :=
  match binary_normalize prec emax z 0 false with
  | S754_infinity _ => Raise OverflowError
  | sf => Ok (SF2Prim sf)
  end.

(** [math.floor(x)]: an [int]; NaN and the infinities raise. *)
Definition math_floor (x : float) : result Z :=
  match Prim2SF x with
  | S754_nan => Raise (ValueError "cannot convert float NaN to integer")
  | S754_infinity _ => Raise OverflowError
  | S754_zero _ => Ok 0
  | S754_finite s m e => Ok (Z.shiftl (cond_Zopp s (Zpos m)) e)
  end.

(** [a / b] on two [int]s: the correctly rounded quotient. *)
Definition int_truediv (a b : Z) : result float :=
  if b =? 0 then Raise ZeroDivisionError
  else match SFdiv prec emax (sf_of_int a) (sf_of_int b) with
       | S754_infinity _ => Raise OverflowError
       | sf => Ok (SF2Prim sf)
       end.

(** [x / y] on two [float]s. *)
Definition float_truediv (x y : float) : result float :=
  if (y =? 0)%float then Raise ZeroDivisionError else Ok (x / y)%float.

(** [x * k] with [x] a [float] and [k] an [int]: [k] is converted first. *)
Definition float_mul_int (x : float) (k : Z) : result float :=
  f <- float_of_int k ;;
  Ok (x * f)%float.

(** ** Dimension, normalisation, rounding *)

(** [len(list(vec))]; on a list nothing raises and [-1] is never returned. *)
Definition detect_dimension (vec : list float) : Z :=
  Z.of_nat (length vec).

(** [sum(x*x for x in arr)], accumulated from left to right from [0], as
    [sum] is documented (CPython 3.12 and later compensate the rounding
    errors of the partial sums; a sum of zeros is zero either way). *)
Definition sum_squares (arr : list float) : float :=
  fold_left (fun acc x => (acc + x * x)%float) arr 0%float.

Definition euclidean_norm (arr : list float) : float :=
  sqrt (sum_squares arr).

Definition default_eps : float := 1e-12%float.

(** [v] is a list of floats, as [main] passes it: [float(x)] is [x]. *)
Definition normalize_vector (v : list float) (eps : float) : result (list float) :=
  let arr := v in
  let norm := euclidean_norm arr in
  if (norm <? eps)%float then Ok arr
  else list_comp (fun x => float_truediv x norm) arr.

(** One component of [round_vector]: [math.floor(x * factor + 0.5) / factor]. *)
Definition round_component (factor : Z) (x : float) : result float :=
  xf <- float_mul_int x factor ;;
  n <- math_floor (xf + 0.5)%float ;;
  int_truediv n factor.

(** [precision] ranges over the non-negative integers: for a negative one
    [10 ** precision] is a float computed by the C library's [pow]. *)
Definition round_vector (v : list float) (precision : N) : result (list float) :=
  let factor := 10 ^ Z.of_N precision in
  list_comp (round_component factor) v.

(** ** Python values *)

(** The values a pickle of plain data holds.  A [str] is its UTF-8 bytes
    (byte order and code-point order agree), a [dict] is its list of entries
    in insertion order, a [numpy.ndarray] is a one-dimensional array of
    [float64]. *)
#[warnings="-register-all"]
Inductive pyval : Type :=
| PNone
| PBool (b : bool)
| PInt (z : Z)
| PFloat (f : float)
| PStr (s : string)
| PList (l : list pyval)
| PTuple (l : list pyval)
| PDict (d : list (pyval * pyval))
| PNdarray (a : list float).

(** The pieces of the Python runtime and of NumPy that the program calls and
    that are not modelled here: the text of a float, of a quoted string and
    of an array, and the parser behind [float(s)] ([None]: [ValueError]);
    and one setting of the interpreter, [sys.get_int_max_str_digits()], the
    number of digits beyond which an [int] has no text (4300 unless it was
    set otherwise, 0 for no limit). *)
Record builtins : Type := {
  float_repr : float -> string;
  str_repr : string -> string;
  ndarray_str : list float -> string;
  ndarray_repr : list float -> string;
  str_to_float : string -> option float;
  int_max_str_digits : N
}.

Definition decimal (z : Z) : string :=
  DecimalString.NilZero.string_of_int (Z.to_int z).

Definition is_nil {A : Type} (l : list A) : bool :=
  match l with
  | [] => true
  | _ :: _ => false
  end.

(** [{"id": ..., "vector": ...}] as built by [extract_items]. *)
Record ExtractedPair : Type := {
  pair_id : string;
  pair_vector : pyval
}.

(** [{"id": ..., "vector": [...]}] as built by [main]. *)
Record CanonicalRecord : Type := {
  rec_id : string;
  rec_vector : list float
}.

Record OutputDocument : Type := {
  version : Z;
  dimension : Z;
  count : Z;
  embeddings : list CanonicalRecord
}.

(** The parsed command line, as far as the conversion reads it. *)
Record options : Type := {
  precision : N;
  max_items : option Z;
  sort : bool;
  normalize : bool
}.

Definition unsupported_structure : exn :=
  ValueError "Structure pickle non supportée directement.".

Definition unsupported_vector : exn :=
  ValueError "Format de vecteur non supporté".

(** [sys.exit(3)] after "Aucun embedding détecté dans le pickle." *)
Definition no_embeddings : exn := SystemExit 3.

(** [isinstance(x, (list, tuple)) or isinstance(x, np.ndarray)] *)
Definition is_array_like (x : pyval) : bool :=
  match x with
  | PList _ | PTuple _ | PNdarray _ => true
  | _ => false
  end.

(** A [str] key is equal to no key of another type. *)
Definition key_is (name : string) (k : pyval) : bool :=
  match k with
  | PStr s => String.eqb s name
  | _ => false
  end.

(** [d[name]] when [name in d]. *)
Fixpoint dict_lookup (name : string) (d : list (pyval * pyval)) : option pyval :=
  match d with
  | [] => None
  | (k, v) :: d' => if key_is name k then Some v else dict_lookup name d'
  end.

(** [d.get(name)] *)
Definition dict_get (d : list (pyval * pyval)) (name : string) : pyval :=
  match dict_lookup name d with
  | Some v => v
  | None => PNone
  end.

(** What [str] and [repr] raise on an [int] of more than [limit] digits. *)
Definition int_too_long (limit : N) : exn :=
  ValueError ("Exceeds the limit (" ++ decimal (Z.of_N limit)
              ++ " digits) for integer string conversion; use sys.set_int_max_str_digits() to increase the limit")%string.

(** What NumPy raises when an array of no element, or of two or more, is
    asked for its truth value. *)
Definition empty_array_truth : exn :=
  ValueError "The truth value of an empty array is ambiguous. Use `array.size > 0` to check that an array is not empty.".

Definition ambiguous_array_truth : exn :=
  ValueError "The truth value of an array with more than one element is ambiguous. Use a.any() or a.all()".

(** [bool(v)]; an array has a truth value only when it holds one element
    (NumPy before 2.2 still gave [False], with a warning, for an empty one). *)
Definition truthy (v : pyval) : result bool :=
  match v with
  | PNone => Ok false
  | PBool b => Ok b
  | PInt z => Ok (negb (z =? 0))
  | PFloat f => Ok (negb (f =? 0)%float)
  | PStr s => Ok (negb (String.eqb s EmptyString))
  | PList l => Ok (negb (is_nil l))
  | PTuple l => Ok (negb (is_nil l))
  | PDict d => Ok (negb (is_nil d))
  | PNdarray [] => Raise empty_array_truth
  | PNdarray [x] => Ok (negb (x =? 0)%float)
  | PNdarray _ => Raise ambiguous_array_truth
  end.

(** [a or b]: [b] is looked at only when [a] is false. *)
Definition py_or (a : pyval) (b : result pyval) : result pyval :=
  t <- truthy a ;;
  if t then Ok a else b.

(** [astype('float32')] on one element, read back by [tolist()]. *)
Definition to_float32 (x : float) : float :=
  match Prim2SF x with
  | S754_finite s m e => SF2Prim (binary_normalize 24 128 (cond_Zopp s (Zpos m)) e s)
  | _ => x
  end.

(** [l[:n]] *)
Definition slice_to {A : Type} (l : list A) (n : Z) : list A :=
  if n <? 0 then firstn (Z.to_nat (Z.of_nat (length l) + n)) l
  else firstn (Z.to_nat n) l.

(** [list.sort(key=lambda x: x['id'])]: the sort is stable and compares the
    keys with [<] only, which fixes its result; it is written here as an
    insertion sort. *)
Fixpoint insert_by_id (x : ExtractedPair) (l : list ExtractedPair) : list ExtractedPair :=
  match l with
  | [] => [x]
  | y :: l' =>
      if String.ltb (pair_id y) (pair_id x) then y :: insert_by_id x l'
      else x :: y :: l'
  end.

Fixpoint sort_by_id (l : list ExtractedPair) : list ExtractedPair :=
  match l with
  | [] => []
  | x :: l' => insert_by_id x (sort_by_id l')
  end.

Section Program.

Variable B : builtins.

(** The text of an [int], for [str], [repr] and the elements of a
    container: [ValueError] when the [int] has more digits (the sign apart)
    than the limit, unless the limit is 0. *)
Definition int_str (z : Z) : result string :=
  let limit := int_max_str_digits B in
  if ((0 <? limit) && (limit <? N.of_nat (String.length (decimal (Z.abs z)))))%N
  then Raise (int_too_long limit)
  else Ok (decimal z).

(** [repr(v)]; the elements of a container are taken from left to right,
    the key of an entry before its value, and the first one without a text
    ends the call.  (The [RecursionError] of a value nested deeper than
    the interpreter's stack allows is left out.) *)
Fixpoint py_repr (v : pyval) : result string :=
  match v with
  | PNone => Ok "None"
  | PBool true => Ok "True"
  | PBool false => Ok "False"
  | PInt z => int_str z
  | PFloat f => Ok (float_repr B f)
  | PStr s => Ok (str_repr B s)
  | PList l =>
      rs <- list_comp py_repr l ;;
      Ok ("[" ++ String.concat ", " rs ++ "]")%string
  | PTuple l =>
      rs <- list_comp py_repr l ;;
      match rs with
      | [r] => Ok ("(" ++ r ++ ",)")%string
      | _ => Ok ("(" ++ String.concat ", " rs ++ ")")%string
      end
  | PDict d =>
      rs <- list_comp (fun kv : pyval * pyval =>
                         let '(k, x) := kv in
                         rk <- py_repr k ;;
                         rx <- py_repr x ;;
                         Ok (rk ++ ": " ++ rx)%string) d ;;
      Ok ("{" ++ String.concat ", " rs ++ "}")%string
  | PNdarray a => Ok (ndarray_repr B a)
  end.

(** [str(v)] *)
Definition py_str (v : pyval) : result string :=
  match v with
  | PStr s => Ok s
  | PNdarray a => Ok (ndarray_str B a)
  | _ => py_repr v
  end.

(** [float(v)]; an array, of one element as of any other number, is
    refused with [TypeError] (NumPy 2.4 and later; before, an array of one
    element was converted, with a deprecation warning). *)
Definition py_float (v : pyval) : result float :=
  match v with
  | PFloat f => Ok f
  | PInt z => float_of_int z
  | PBool b => Ok (if b then 1 else 0)%float
  | PStr s =>
      match str_to_float B s with
      | Some f => Ok f
      | None => Raise (ValueError ("could not convert string to float: " ++ str_repr B s)%string)
      end
  | _ => Raise TypeError
  end.

(** [items.append({"id": str(ident), "vector": vec})]: the text of the
    identifier is computed first, and nothing is appended when it raises. *)
Definition append_pair (items : list ExtractedPair) (ident vec : pyval)
  : result (list ExtractedPair) :=
  s <- py_str ident ;;
  Ok (items ++ [{| pair_id := s; pair_vector := vec |}]).

(** The body of [for k, v in obj.items()]: the list of pairs after the entry. *)
Definition extract_entry (items : list ExtractedPair) (k v : pyval)
  : result (list ExtractedPair) :=
  match v with
  | PDict d =>
      match dict_lookup "embedding" d with
      | Some e => append_pair items k e
      | None =>
          match dict_lookup "vector" d with
          | Some e => append_pair items k e
          | None =>
              match filter is_array_like (map snd d) with
              | m :: _ => append_pair items k m
              | [] => Ok items
              end
          end
      end
  | PList _ | PTuple _ | PNdarray _ => append_pair items k v
  | _ => Ok items
  end.

(** The body of [for el in obj]: the list of pairs after the element.  The
    number in [f"item_{len(items)}"] is a length, far below every limit on
    the digits of an [int]. *)
Definition extract_element (items : list ExtractedPair) (el : pyval)
  : result (list ExtractedPair) :=
  match el with
  | PDict d =>
      vid <- py_or (dict_get d "id")
               (py_or (dict_get d "name")
                  (py_or (dict_get d "label")
                     (Ok (PStr ("item_" ++ decimal (Z.of_nat (length items)))%string)))) ;;
      vec <- py_or (dict_get d "embedding") (Ok (dict_get d "vector")) ;;
      match vec with
      | PNone => Ok items
      | _ => append_pair items vid vec
      end
  | PList l | PTuple l =>
      match l with
      | [label; vec] => append_pair items label vec
      | _ => Ok items
      end
  | _ => Ok items
  end.

Fixpoint extract_mapping (items : list ExtractedPair) (d : list (pyval * pyval))
  : result (list ExtractedPair) :=
  match d with
  | [] => Ok items
  | (k, v) :: d' =>
      items' <- extract_entry items k v ;;
      extract_mapping items' d'
  end.

Fixpoint extract_sequence (items : list ExtractedPair) (l : list pyval)
  : result (list ExtractedPair) :=
  match l with
  | [] => Ok items
  | el :: l' =>
      items' <- extract_element items el ;;
      extract_sequence items' l'
  end.

Definition extract_items (obj : pyval) : result (list ExtractedPair) :=
  match obj with
  | PDict d => extract_mapping [] d
  | PList l => extract_sequence [] l
  | _ => Raise unsupported_structure
  end.

Definition coerce_vector (v : pyval) : result (list float) :=
  match v with
  | PNdarray a => Ok (map to_float32 a)
  | PList l | PTuple l => list_comp py_float l
  | _ => Raise unsupported_vector
  end.

(** The body of [for it in items], up to the record that is appended. *)
Definition process_item (args : options) (it : ExtractedPair) : result CanonicalRecord :=
  vec <- coerce_vector (pair_vector it) ;;
  vec <- (if normalize args then normalize_vector vec default_eps else Ok vec) ;;
  vec <- round_vector vec (precision args) ;;
  Ok {| rec_id := pair_id it; rec_vector := vec |}.

(** [for it in items], with [processed] and [dimension] as its state. *)
Fixpoint process_loop (args : options) (items : list ExtractedPair)
    (processed : list CanonicalRecord) (dim : option Z)
  : result (list CanonicalRecord * option Z) :=
  match items with
  | [] => Ok (processed, dim)
  | it :: rest =>
      r <- process_item args it ;;
      let dim' :=
        match dim with
        | None => Some (detect_dimension (rec_vector r))
        | Some d => Some d
        end in
      process_loop args rest (processed ++ [r]) dim'
  end.

(** [main] from the loaded pickle [data] and the parsed arguments to
    [out_obj], the document handed to [json.dump]. *)
Definition main (data : pyval) (args : options) : result OutputDocument :=
  items <- extract_items data ;;
  if is_nil items then Raise no_embeddings
  else
    let items := if sort args then sort_by_id items else items in
    let items :=
      match max_items args with
      | Some n => if n =? 0 then items else slice_to items n
      | None => items
      end in
    st <- process_loop args items [] None ;;
    let '(processed, dim) := st in
    Ok {| version := 1;
          dimension := match dim with Some d => d | None => 0 end;
          count := Z.of_nat (length processed);
          embeddings := processed |}.

End Program.

(** * Definitions for the statements *)

(** ** The rounding rule *)

(** The rounding rule in the words of the specification,
    [floor(x * 10^precision + 0.5) / 10^precision], every operation being
    Python's. *)
Definition half_up (p : N) (x : float) : result float :=
  scale <- float_of_int (10 ^ Z.of_N p) ;;
  n <- math_floor (x * scale + 0.5)%float ;;
  int_truediv n (10 ^ Z.of_N p).

(** The integer [round_vector] scales a component to:
    [math.floor(x * 10^p + 0.5)]. *)
Definition scaled (p : N) (x : float) : result Z :=
  xf <- float_mul_int x (10 ^ Z.of_N p) ;;
  math_floor (xf + 0.5)%float.

(** [10^p] is a binary64 value, with mantissa [mF] and exponent [eF]. *)
Definition pow10_exact (p : N) : bool :=
  match binary_normalize prec emax (10 ^ Z.of_N p) 0 false with
  | S754_finite false mF eF =>
      (2 ^ 52 <=? Zpos mF) && (Zpos mF <? 2 ^ 53) && (-52 <=? eF) && (eF <=? 21)
      && (Zpos mF * 2 ^ (eF + 52) =? 10 ^ Z.of_N p * 2 ^ 52)
  | _ => false
  end.

(** [r] locates the ratio [A / B]: its mantissa is the integer part, its
    round and sticky bits compare the remainder with a half. *)
Definition locates (A B : Z) (r : shr_record) : Prop :=
  0 < B /\ 0 <= shr_m r
  /\ shr_m r * B <= A < (shr_m r + 1) * B
  /\ (shr_r r = true <-> B <= 2 * (A - shr_m r * B))
  /\ (shr_s r = false <-> A = shr_m r * B \/ 2 * (A - shr_m r * B) = B).

(** ** The formula and the real numbers *)

(** The value of a float that is neither infinite nor NaN, as the fraction
    [num / 2^k] with [0 <= k]. *)
Definition float_fraction (x : float) : option (Z * Z) :=
  match Prim2SF x with
  | S754_zero _ => Some (0, 0)
  | S754_finite s m e =>
      if e <? 0 then Some (cond_Zopp s (Zpos m), - e)
      else Some (cond_Zopp s (Zpos m) * 2 ^ e, 0)
  | _ => None
  end.

(** The value of [x] is [a / 2^k]. *)
Definition has_value (x : float) (a k : Z) : Prop :=
  exists num k', float_fraction x = Some (num, k') /\ num * 2 ^ k = a * 2 ^ k'.

(** [n] is the floor of the value of [t]: [n <= t < n + 1]. *)
Definition is_floor (t : float) (n : Z) : Prop :=
  exists num k, float_fraction t = Some (num, k) /\ n * 2 ^ k <= num < (n + 1) * 2 ^ k.

(** [y] is a float within half a unit in its last place of the quotient
    [a / b], for [0 < b]. *)
Definition rounds_quotient (a b : Z) (y : float) : Prop :=
  match Prim2SF y with
  | S754_zero _ => a = 0
  | S754_finite s m e =>
      2 ^ 52 <= Zpos m < 2 ^ 53 /\ e < 0
      /\ 2 * Z.abs (cond_Zopp s (Zpos m) * b - a * 2 ^ (- e)) <= b
  | _ => False
  end.

(** What [round_vector] makes of a component [x] at precision [p]: with
    [f] the float of [10^p], the floor [n] of the float [x * f + 0.5], both
    operations rounded, and then the float of [n / 10^p]. *)
Definition rounds_to (p : N) (x y : float) : Prop :=
  exists f n,
    float_of_int (10 ^ Z.of_N p) = Ok f
    /\ is_floor (x * f + 0.5)%float n
    /\ int_truediv n (10 ^ Z.of_N p) = Ok y.

(** Modelled from the spec: round-half-up at [p] decimals of the real number
    that [x] stands for, [floor(x * 10^p + 1/2)], in exact arithmetic. *)
Definition exact_half_up (p : N) (x : float) : option Z :=
  match float_fraction x with
  | Some (num, k) => Some ((2 * num * 10 ^ Z.of_N p + 2 ^ k) / 2 ^ (k + 1))
  | None => None
  end.

(** A tie at precision [p] that is a float: [j / 2^(p+1)] for an odd [j],
    which is [(k + 1/2) / 10^p] for [k + 1/2 = j * 5^p / 2]. *)
Definition decimal_tie (p : N) (j : Z) : float :=
  SF2Prim (binary_normalize prec emax j (- (Z.of_N p + 1)) false).

(** The tie [decimal_tie p (2 * i + 1)] has the value it is named for and
    goes up, in the program as in exact arithmetic. *)
Definition decimal_tie_goes_up (p : N) (i : Z) : bool :=
  let j := 2 * i + 1 in
  let k := (j * 5 ^ Z.of_N p - 1) / 2 in
  match float_fraction (decimal_tie p j),
        scaled p (decimal_tie p j),
        exact_half_up p (decimal_tie p j) with
  | Some (num, k'), Ok n, Some n' =>
      (num * 2 ^ (Z.of_N p + 1) =? j * 2 ^ k') && (n =? k + 1) && (n' =? k + 1)
  | _, _, _ => false
  end.

Definition tie_range : list Z :=
  map (fun i => Z.of_nat i - 1000) (seq 0 2000).

Definition tie_precisions : list N := [0; 1; 2; 3]%N.

(** ** Sorting and the pipeline *)

(** [p] may stand before [q]: the identifier of [q] is not below that of [p]. *)
Definition id_le (p q : ExtractedPair) : Prop :=
  String.ltb (pair_id q) (pair_id p) = false.

Definition has_id (s : string) (p : ExtractedPair) : bool :=
  String.eqb (pair_id p) s.

(** The pairs that reach the processing loop of [main]. *)
Definition surviving (args : options) (items : list ExtractedPair) : list ExtractedPair :=
  let items := if sort args then sort_by_id items else items in
  match max_items args with
  | Some n => if n =? 0 then items else slice_to items n
  | None => items
  end.

(** [out_obj] for the records [rs]. *)
Definition document_of (rs : list CanonicalRecord) : OutputDocument := {|
  version := 1;
  dimension := match rs with
               | r :: _ => detect_dimension (rec_vector r)
               | [] => 0
               end;
  count := Z.of_nat (length rs);
  embeddings := rs
|}.

(** ** Extraction *)

(** The texts of floats and of arrays are never empty. *)
Definition reprs_nonempty (B : builtins) : Prop :=
  (forall f, float_repr B f <> EmptyString) /\ (forall a, ndarray_str B a <> EmptyString).

(** The invariant of an extracted pair. *)
Definition checked (p : ExtractedPair) : Prop :=
  pair_id p <> EmptyString /\ pair_vector p <> PNone.

(** The vector discovered in the value of a mapping entry: under
    ["embedding"], else under ["vector"], else the first array-like member;
    for a value that is no mapping, the value itself when it is array-like. *)
Definition discovered_vector (v : pyval) : option pyval :=
  match v with
  | PDict d =>
      match dict_lookup "embedding" d with
      | Some e => Some e
      | None =>
          match dict_lookup "vector" d with
          | Some e => Some e
          | None => hd_error (filter is_array_like (map snd d))
          end
      end
  | _ => if is_array_like v then Some v else None
  end.

(** What an entry of a mapping adds: nothing when no vector is discovered,
    the key being then left alone; else the pair of the text of the key and
    the vector, or the error of that text. *)
Definition emitted_for_entry (B : builtins) (kv : pyval * pyval)
  : result (list ExtractedPair) :=
  match discovered_vector (snd kv) with
  | Some e =>
      s <- py_str B (fst kv) ;;
      Ok [{| pair_id := s; pair_vector := e |}]
  | None => Ok []
  end.

Definition is_true (v : pyval) : Prop := truthy v = Ok true.
Definition is_false (v : pyval) : Prop := truthy v = Ok false.

(** The identifier of a mapping-like element [d] of a sequence, [n] pairs
    having been emitted before it. *)
Inductive resolves_id (d : list (pyval * pyval)) (n : nat) : pyval -> Prop :=
| id_by_id :
    is_true (dict_get d "id") -> resolves_id d n (dict_get d "id")
| id_by_name :
    is_false (dict_get d "id") -> is_true (dict_get d "name") ->
    resolves_id d n (dict_get d "name")
| id_by_label :
    is_false (dict_get d "id") -> is_false (dict_get d "name") ->
    is_true (dict_get d "label") ->
    resolves_id d n (dict_get d "label")
| id_synthetic :
    is_false (dict_get d "id") -> is_false (dict_get d "name") ->
    is_false (dict_get d "label") ->
    resolves_id d n (PStr ("item_" ++ decimal (Z.of_nat n))).

(** The vector of a mapping-like element of a sequence. *)
Inductive resolves_vector (d : list (pyval * pyval)) : pyval -> Prop :=
| vector_by_embedding :
    is_true (dict_get d "embedding") -> resolves_vector d (dict_get d "embedding")
| vector_by_vector :
    is_false (dict_get d "embedding") -> resolves_vector d (dict_get d "vector").

(** ** Example inputs *)

(** An instance of [builtins] for running the program on inputs that hold no
    float, quoted string or array where a text is asked for, and no string
    where a float is: there its fields are never called.  The limit on the
    digits of an [int] is the default one. *)
Definition sample_builtins : builtins := {|
  float_repr := fun _ => "<float>";
  str_repr := fun s => ("'" ++ s ++ "'")%string;
  ndarray_str := fun _ => "[...]";
  ndarray_repr := fun _ => "array([...])";
  str_to_float := fun _ => None;
  int_max_str_digits := 4300
|}.

Definition floats (l : list float) : pyval := PList (map PFloat l).

(** [{"bob": [1.0, 2.0], "alice": [3.0, 4.0]}] *)
Definition bob_alice : pyval :=
  PDict [(PStr "bob", floats [1; 2]%float); (PStr "alice", floats [3; 4]%float)].

Definition bob_pair : ExtractedPair :=
  {| pair_id := "bob"; pair_vector := floats [1; 2]%float |}.

Definition alice_pair : ExtractedPair :=
  {| pair_id := "alice"; pair_vector := floats [3; 4]%float |}.

Definition bob_record : CanonicalRecord :=
  {| rec_id := "bob"; rec_vector := [1; 2]%float |}.

Definition alice_record : CanonicalRecord :=
  {| rec_id := "alice"; rec_vector := [3; 4]%float |}.

(** [--sort --max-items n] at the default precision. *)
Definition sorted_capped (n : Z) : options :=
  {| precision := 6; max_items := Some n; sort := true; normalize := false |}.

(** ** Shapes of sequence elements and of the output *)

(** The two components of a two-element list or tuple. *)
Definition two_elements (el : pyval) : option (pyval * pyval) :=
  match el with
  | PList [label; vec] | PTuple [label; vec] => Some (label, vec)
  | _ => None
  end.

(** An element of a sequence that is neither a mapping nor a two-element
    list or tuple. *)
Definition other_shape (el : pyval) : bool :=
  match el with
  | PDict _ => false
  | _ => match two_elements el with
         | Some _ => false
         | None => true
         end
  end.

(** What an element of a sequence adds.  A mapping-like element adds
    nothing, or one pair that keeps the invariant and whose vector is the
    value of ["embedding"] or of ["vector"]; a two-element list or tuple
    adds the pair of the text of its first component and its second
    component, as they are; every other element adds nothing. *)
Definition element_emits (B : builtins) (el : pyval) (ps : list ExtractedPair) : Prop :=
  match el with
  | PDict d =>
      ps = []
      \/ exists p, ps = [p] /\ checked p
           /\ (pair_vector p = dict_get d "embedding" \/ pair_vector p = dict_get d "vector")
  | _ =>
      match two_elements el with
      | Some (label, vec) =>
          exists s, py_str B label = Ok s /\ ps = [{| pair_id := s; pair_vector := vec |}]
      | None => ps = []
      end
  end.

(** The truth value asked of the identifier keys raises [e]: at the first
    of ["id"], ["name"], ["label"] whose value is not false. *)
Inductive id_raises (d : list (pyval * pyval)) (e : exn) : Prop :=
| raises_at_id :
    truthy (dict_get d "id") = Raise e -> id_raises d e
| raises_at_name :
    is_false (dict_get d "id") -> truthy (dict_get d "name") = Raise e -> id_raises d e
| raises_at_label :
    is_false (dict_get d "id") -> is_false (dict_get d "name") ->
    truthy (dict_get d "label") = Raise e -> id_raises d e.

(** A record of the output read as an element of a sequence input:
    [{"id": ..., "vector": [...]}]. *)
Definition record_as_element (r : CanonicalRecord) : pyval :=
  PDict [(PStr "id", PStr (rec_id r)); (PStr "vector", floats (rec_vector r))].

(** [r] may stand before [r']: the order of [id_le] on records. *)
Definition rec_le (r r' : CanonicalRecord) : Prop :=
  String.ltb (rec_id r') (rec_id r) = false.

(** The number of pairs that [main] keeps out of [len]. *)
Definition kept (max_items : option Z) (len : Z) : Z :=
  match max_items with
  | None => len
  | Some n =>
      if n =? 0 then len
      else if n <? 0 then Z.max 0 (len + n)
      else Z.min n len
  end.

(** [max_items] is unset or 0: [if args.max_items] is false and nothing is
    cut off. *)
Definition keeps_all (args : options) : bool :=
  match max_items args with
  | None => true
  | Some n => n =? 0
  end.

(** ** The range of the precision *)

(** At precision [p] the zero component is rounded to zero. *)
Definition rounds_zero (p : N) : bool :=
  match round_component (10 ^ Z.of_N p) 0%float with
  | Ok y => Leibniz.eqb y 0%float
  | Raise _ => false
  end.

(** * Properties *)

(** ** The error monad and comprehensions *)

Lemma bind_ok {A B : Type} (r : result A) (k : A -> result B) (b : B) :
  bind r k = Ok b <-> exists a, r = Ok a /\ k a = Ok b.
Proof.
  destruct r as [a | e]; simpl; split.
  - intros H. exists a. auto.
  - intros (a' & Ha & Hk). inversion Ha. subst. exact Hk.
  - discriminate.
  - intros (a' & Ha & _). discriminate.
Qed.

Lemma bind_raise {A B : Type} (r : result A) (k : A -> result B) (e : exn) :
  bind r k = Raise e <-> r = Raise e \/ exists a, r = Ok a /\ k a = Raise e.
Proof.
  destruct r as [a | e']; simpl; split.
  - intros H. right. exists a. auto.
  - intros [H | (a' & Ha & Hk)]; [discriminate | ]. inversion Ha. subst. exact Hk.
  - intros H. left. inversion H. reflexivity.
  - intros [H | (a' & Ha & _)]; [inversion H; reflexivity | discriminate].
Qed.

Section Comprehension.

Context {A B : Type}.
Variable f : A -> result B.

Lemma list_comp_ok (l : list A) (ys : list B) :
  list_comp f l = Ok ys <-> Forall2 (fun x y => f x = Ok y) l ys.
Proof.
  revert ys. induction l as [ | x l IH]; intros ys; simpl.
  - split.
    + intros H. inversion H. constructor.
    + intros H. inversion H. reflexivity.
  - split.
    + intros H. apply bind_ok in H. destruct H as (y & Hy & H).
      apply bind_ok in H. destruct H as (ys' & Hys & H).
      inversion H. subst. constructor; [exact Hy | ]. apply IH. exact Hys.
    + intros H. inversion H as [ | x' y l' ys' Hy Hrest]. subst.
      rewrite Hy. simpl. apply IH in Hrest. rewrite Hrest. reflexivity.
Qed.

Lemma list_comp_length (l : list A) (ys : list B) :
  list_comp f l = Ok ys -> length ys = length l.
Proof.
  intros H. apply list_comp_ok in H. symmetry. eapply Forall2_length. exact H.
Qed.

(** The comprehension raises what its first failing element raises. *)
Lemma list_comp_raise (l : list A) (e : exn) :
  list_comp f l = Raise e <->
  exists pre x post,
    l = pre ++ x :: post /\ Forall (fun x' => exists y, f x' = Ok y) pre /\ f x = Raise e.
Proof.
  induction l as [ | x l IH]; simpl.
  - split; [discriminate | ].
    intros (pre & x & post & H & _). destruct pre; discriminate.
  - split.
    + intros H. apply bind_raise in H. destruct H as [H | (y & Hy & H)].
      * exists [], x, l. auto.
      * apply bind_raise in H. destruct H as [H | (ys & _ & H)]; [ | discriminate].
        apply IH in H. destruct H as (pre & x' & post & Hl & Hpre & Hx).
        exists (x :: pre), x', post. subst. repeat split; eauto.
    + intros (pre & x' & post & Hl & Hpre & Hx). destruct pre as [ | z pre].
      * inversion Hl. subst. rewrite Hx. reflexivity.
      * inversion Hl. subst. inversion Hpre as [ | ? ? (y & Hy) Hpre']. subst.
        rewrite Hy. simpl.
        assert (Hr : list_comp f (pre ++ x' :: post) = Raise e).
        { apply IH. exists pre, x', post. auto. }
        rewrite Hr. reflexivity.
Qed.

Lemma list_comp_defined (l : list A) :
  Forall (fun x => exists y, f x = Ok y) l -> exists ys, list_comp f l = Ok ys.
Proof.
  induction 1 as [ | x l (y & Hy) _ (ys & Hys)]; simpl.
  - exists []. reflexivity.
  - exists (y :: ys). rewrite Hy. simpl. rewrite Hys. reflexivity.
Qed.

Lemma list_comp_app (l1 l2 : list A) :
  list_comp f (l1 ++ l2) =
  (ys1 <- list_comp f l1 ;; ys2 <- list_comp f l2 ;; Ok (ys1 ++ ys2)).
Proof.
  induction l1 as [ | x l1 IH]; simpl.
  - destruct (list_comp f l2); reflexivity.
  - destruct (f x) as [y | e]; simpl; [ | reflexivity].
    rewrite IH. destruct (list_comp f l1) as [ys1 | e]; simpl; [ | reflexivity].
    destruct (list_comp f l2); reflexivity.
Qed.

End Comprehension.

Lemma list_comp_pure {A B : Type} (g : A -> B) (l : list A) :
  list_comp (fun x => Ok (g x)) l = Ok (map g l).
Proof.
  induction l as [ | x l IH]; simpl; [reflexivity | ]. rewrite IH. reflexivity.
Qed.

Lemma list_comp_ext {A B : Type} (f g : A -> result B) (l : list A) :
  (forall x, In x l -> f x = g x) -> list_comp f l = list_comp g l.
Proof.
  induction l as [ | x l IH]; simpl; intros H; [reflexivity | ].
  rewrite (H x) by auto. rewrite IH by auto. reflexivity.
Qed.

(** ** Float comparisons *)

Lemma Prim2SF_zero : Prim2SF 0%float = S754_zero false.
Proof. reflexivity. Qed.

(** A float equal to [0.0] (either zero) is [0.0] or [-0.0]. *)
Lemma eqb_zero_inv (x : float) :
  (x =? 0)%float = true -> x = 0%float \/ x = neg_zero.
Proof.
  rewrite eqb_spec, Prim2SF_zero. intros H.
  rewrite <- (SF2Prim_Prim2SF x).
  destruct (Prim2SF x) as [[ | ] | s | | s m e]; simpl in H; try discriminate; auto;
    destruct s; discriminate.
Qed.

(** Below a positive bound there is every zero: a float that is not below it
    is a divisor Python accepts. *)
Lemma not_below_positive_nonzero (x eps : float) :
  (0 <? eps)%float = true -> (x <? eps)%float = false -> (x =? 0)%float = false.
Proof.
  rewrite eqb_spec, !ltb_spec, Prim2SF_zero.
  destruct (Prim2SF x) as [sx | sx | | sx mx ex], (Prim2SF eps) as [se | se | | se me ee];
    simpl; try discriminate; try reflexivity;
    try (destruct sx; reflexivity); try (destruct se; discriminate).
Qed.

Lemma sum_squares_zeros (v : list float) :
  Forall (fun x => (x =? 0)%float = true) v -> sum_squares v = 0%float.
Proof.
  unfold sum_squares. induction 1 as [ | x v Hx _ IH]; simpl; [reflexivity | ].
  apply eqb_zero_inv in Hx. destruct Hx as [-> | ->]; exact IH.
Qed.

(** ** normalize_vector *)

Lemma normalize_vector_below (v : list float) (eps : float) :
  (euclidean_norm v <? eps)%float = true -> normalize_vector v eps = Ok v.
Proof. unfold normalize_vector. intros ->. reflexivity. Qed.

Lemma normalize_vector_divides (v : list float) (eps : float) :
  (0 <? eps)%float = true ->
  (euclidean_norm v <? eps)%float = false ->
  normalize_vector v eps = Ok (map (fun x => (x / euclidean_norm v)%float) v).
Proof.
  intros Hpos Hnot. unfold normalize_vector. rewrite Hnot.
  unfold float_truediv. rewrite (not_below_positive_nonzero _ _ Hpos Hnot).
  apply list_comp_pure.
Qed.

Lemma normalize_vector_zeros (v : list float) (eps : float) :
  (0 <? eps)%float = true ->
  Forall (fun x => (x =? 0)%float = true) v -> normalize_vector v eps = Ok v.
Proof.
  intros Hpos Hz. apply normalize_vector_below.
  unfold euclidean_norm. rewrite (sum_squares_zeros v Hz). exact Hpos.
Qed.

Lemma normalize_vector_total (v : list float) (eps : float) :
  (0 <? eps)%float = true ->
  exists w, normalize_vector v eps = Ok w /\ length w = length v.
Proof.
  intros Hpos. destruct (euclidean_norm v <? eps)%float eqn:E.
  - exists v. split; [apply normalize_vector_below; exact E | reflexivity].
  - eexists. split; [apply normalize_vector_divides; assumption | ].
    apply length_map.
Qed.

Lemma default_eps_positive : (0 <? default_eps)%float = true.
Proof. reflexivity. Qed.

(** ** round_vector *)

Lemma round_component_half_up (p : N) (x : float) :
  round_component (10 ^ Z.of_N p) x = half_up p x.
Proof.
  unfold round_component, half_up, float_mul_int.
  destruct (float_of_int (10 ^ Z.of_N p)); reflexivity.
Qed.

Lemma round_vector_length (v : list float) (p : N) (w : list float) :
  round_vector v p = Ok w -> length w = length v.
Proof. apply list_comp_length. Qed.

(** C7, as stated, fails when [epsilon] is not positive: the all-zero vector
    [[0.0]] with [epsilon = 0.0] has a norm that is not below [epsilon], and
    the division by that norm raises [ZeroDivisionError]. *)
Lemma normalize_vector_zero_eps :
  normalize_vector [0%float] 0%float = Raise ZeroDivisionError.
Proof. vm_compute. reflexivity. Qed.

(** C7 (amended). For every positive [epsilon], the default [1e-12]
    included, [normalize_vector v epsilon] returns [v] unchanged whenever the
    Euclidean norm of [v] is below [epsilon], in particular for every
    all-zero vector; otherwise it returns [v] with every component divided by
    the norm. *)
Theorem normalize_vector_spec (v : list float) (eps : float) :
  (0 <? eps)%float = true ->
  ((euclidean_norm v <? eps)%float = true -> normalize_vector v eps = Ok v)
  /\ (Forall (fun x => (x =? 0)%float = true) v -> normalize_vector v eps = Ok v)
  /\ ((euclidean_norm v <? eps)%float = false ->
      normalize_vector v eps = Ok (map (fun x => (x / euclidean_norm v)%float) v)).
Proof.
  intros Hpos. split; [ | split].
  - apply normalize_vector_below.
  - apply normalize_vector_zeros. exact Hpos.
  - apply normalize_vector_divides. exact Hpos.
Qed.

Lemma normalize_vector_spec_witness :
  (0 <? default_eps)%float = true
  /\ normalize_vector [0; -0; 0]%float default_eps = Ok [0; -0; 0]%float
  /\ normalize_vector [3; 4]%float default_eps
     = Ok (map (fun x => (x / euclidean_norm [3; 4]%float)%float) [3; 4]%float).
Proof.
  pose proof (normalize_vector_spec [0; -0; 0]%float default_eps default_eps_positive)
    as (_ & Hz & _).
  pose proof (normalize_vector_spec [3; 4]%float default_eps default_eps_positive)
    as (_ & _ & Hd).
  split; [reflexivity | split].
  - apply Hz. repeat constructor.
  - apply Hd. vm_compute. reflexivity.
Defined.

(** C10, as stated, fails on a vector that holds NaN: [round_vector] does
    not return, [math.floor] raises [ValueError]. *)
Lemma round_vector_nan :
  round_vector [nan] 6 = Raise (ValueError "cannot convert float NaN to integer")
  /\ round_vector [infinity] 6 = Raise OverflowError.
Proof. split; vm_compute; reflexivity. Qed.

(** ** Sorting by identifier *)

Lemma string_compare_refl (a : string) : String.compare a a = Eq.
Proof.
  pose proof (String.compare_antisym a a) as H.
  destruct (String.compare a a); simpl in H; congruence.
Qed.

Lemma ascii_compare_lt_trans (a b c : ascii) :
  Ascii.compare a b = Lt -> Ascii.compare b c = Lt -> Ascii.compare a c = Lt.
Proof.
  unfold Ascii.compare. rewrite !N.compare_lt_iff. lia.
Qed.

Lemma string_compare_lt_trans (a b c : string) :
  String.compare a b = Lt -> String.compare b c = Lt -> String.compare a c = Lt.
Proof.
  revert b c. induction a as [ | x a IH]; intros [ | y b] [ | z c]; simpl;
    try discriminate; try reflexivity.
  destruct (Ascii.compare x y) eqn:Exy; try discriminate.
  - apply Ascii.compare_eq_iff in Exy. subst y.
    destruct (Ascii.compare x z); try discriminate; auto.
    apply IH.
  - intros _. destruct (Ascii.compare y z) eqn:Eyz; try discriminate.
    + apply Ascii.compare_eq_iff in Eyz. subst z. rewrite Exy. reflexivity.
    + intros _. rewrite (ascii_compare_lt_trans _ _ _ Exy Eyz). reflexivity.
Qed.

Lemma ltb_irrefl (a : string) : String.ltb a a = false.
Proof. unfold String.ltb. rewrite string_compare_refl. reflexivity. Qed.

Lemma ltb_asym (a b : string) : String.ltb a b = true -> String.ltb b a = false.
Proof.
  unfold String.ltb. rewrite (String.compare_antisym b a).
  destruct (String.compare a b); simpl; congruence.
Qed.

(** [a <= b] and [b <= c] give [a <= c], with [x <= y] read as "not [y < x]". *)
Lemma not_ltb_trans (a b c : string) :
  String.ltb b a = false -> String.ltb c b = false -> String.ltb c a = false.
Proof.
  unfold String.ltb. intros Hab Hbc.
  destruct (String.compare c a) eqn:Eca; try reflexivity.
  destruct (String.compare b a) eqn:Eba; try discriminate.
  - apply String.compare_eq_iff in Eba. subst b. rewrite Eca in Hbc. discriminate.
  - destruct (String.compare c b) eqn:Ecb; try discriminate.
    + apply String.compare_eq_iff in Ecb. subst c. rewrite Eca in Eba. discriminate.
    + rewrite String.compare_antisym in Eba, Ecb.
      destruct (String.compare a b) eqn:Eab; try discriminate.
      destruct (String.compare b c) eqn:Ebc; try discriminate.
      pose proof (string_compare_lt_trans _ _ _ Eab Ebc) as Hac.
      rewrite String.compare_antisym, Hac in Eca. discriminate.
Qed.

Lemma id_le_trans (p q r : ExtractedPair) : id_le p q -> id_le q r -> id_le p r.
Proof. unfold id_le. apply not_ltb_trans. Qed.

Lemma insert_by_id_perm (x : ExtractedPair) (l : list ExtractedPair) :
  Permutation (x :: l) (insert_by_id x l).
Proof.
  induction l as [ | y l IH]; simpl; [reflexivity | ].
  destruct (String.ltb (pair_id y) (pair_id x)); [ | reflexivity].
  rewrite perm_swap. apply perm_skip. exact IH.
Qed.

Lemma sort_by_id_perm (l : list ExtractedPair) : Permutation l (sort_by_id l).
Proof.
  induction l as [ | x l IH]; simpl; [reflexivity | ].
  rewrite <- insert_by_id_perm. apply perm_skip. exact IH.
Qed.

Lemma insert_by_id_sorted (x : ExtractedPair) (l : list ExtractedPair) :
  StronglySorted id_le l -> StronglySorted id_le (insert_by_id x l).
Proof.
  induction 1 as [ | y l Hl IH Hy]; simpl.
  - repeat constructor.
  - destruct (String.ltb (pair_id y) (pair_id x)) eqn:E.
    + constructor; [exact IH | ].
      apply (Permutation_Forall (insert_by_id_perm x l)).
      constructor; [ | exact Hy]. unfold id_le. apply ltb_asym. exact E.
    + constructor; [constructor; assumption | ].
      constructor; [exact E | ].
      eapply Forall_impl; [ | exact Hy]. intros z Hz.
      eapply id_le_trans; [exact E | exact Hz].
Qed.

Lemma sort_by_id_sorted (l : list ExtractedPair) : StronglySorted id_le (sort_by_id l).
Proof.
  induction l as [ | x l IH]; simpl; [constructor | ].
  apply insert_by_id_sorted. exact IH.
Qed.

Lemma insert_by_id_stable (s : string) (x : ExtractedPair) (l : list ExtractedPair) :
  filter (has_id s) (insert_by_id x l) = filter (has_id s) (x :: l).
Proof.
  induction l as [ | y l IH]; [reflexivity | ].
  cbn [insert_by_id]. destruct (String.ltb (pair_id y) (pair_id x)) eqn:E; [ | reflexivity].
  cbn [filter] in *. rewrite IH.
  destruct (has_id s y) eqn:Ey, (has_id s x) eqn:Ex; try reflexivity.
  unfold has_id in Ey, Ex. apply String.eqb_eq in Ey, Ex.
  rewrite Ey, Ex, ltb_irrefl in E. discriminate.
Qed.

(** The pairs of one identifier keep their order. *)
Lemma sort_by_id_stable (s : string) (l : list ExtractedPair) :
  filter (has_id s) (sort_by_id l) = filter (has_id s) l.
Proof.
  induction l as [ | x l IH]; [reflexivity | ].
  cbn [sort_by_id]. rewrite insert_by_id_stable. cbn [filter]. rewrite IH. reflexivity.
Qed.

Lemma sort_by_id_nil (l : list ExtractedPair) : sort_by_id l = [] -> l = [].
Proof.
  intros H. apply Permutation_nil. rewrite <- H. symmetry. apply sort_by_id_perm.
Qed.

(** ** The pipeline *)

Section Pipeline.

Variable B : builtins.

(** The loop appends the records of a comprehension over the items, and
    [dimension] is fixed by the first record appended. *)
Lemma process_loop_list_comp (args : options) (items : list ExtractedPair)
    (processed : list CanonicalRecord) (dim : option Z) :
  process_loop B args items processed dim =
  (rs <- list_comp (process_item B args) items ;;
   Ok (processed ++ rs,
       match dim with
       | Some d => Some d
       | None => match rs with
                 | r :: _ => Some (detect_dimension (rec_vector r))
                 | [] => None
                 end
       end)).
Proof.
  revert processed dim. induction items as [ | it items IH]; intros processed dim; simpl.
  - rewrite app_nil_r. destruct dim; reflexivity.
  - destruct (process_item B args it) as [r | e]; simpl; [ | reflexivity].
    rewrite IH. destruct (list_comp (process_item B args) items) as [rs | e]; simpl;
      [ | reflexivity].
    rewrite <- app_assoc. simpl. destruct dim; reflexivity.
Qed.

Lemma main_eq (data : pyval) (args : options) :
  main B data args =
  (items <- extract_items B data ;;
   if is_nil items then Raise no_embeddings
   else rs <- list_comp (process_item B args) (surviving args items) ;;
        Ok (document_of rs)).
Proof.
  unfold main. destruct (extract_items B data) as [items | e]; simpl; [ | reflexivity].
  destruct (is_nil items); [reflexivity | ].
  rewrite process_loop_list_comp. fold (surviving args items).
  destruct (list_comp (process_item B args) (surviving args items)) as [rs | e]; simpl;
    [ | reflexivity].
  unfold document_of. destruct rs; reflexivity.
Qed.

Lemma main_ok_inv (data : pyval) (args : options) (doc : OutputDocument) :
  main B data args = Ok doc ->
  exists items rs,
    extract_items B data = Ok items /\ items <> []
    /\ list_comp (process_item B args) (surviving args items) = Ok rs
    /\ doc = document_of rs.
Proof.
  rewrite main_eq. intros H. apply bind_ok in H. destruct H as (items & Hi & H).
  destruct items as [ | it items]; [discriminate | ]. simpl in H.
  apply bind_ok in H. destruct H as (rs & Hrs & H). inversion H.
  exists (it :: items), rs. repeat split; try assumption. discriminate.
Qed.

Lemma process_item_id (args : options) (it : ExtractedPair) (r : CanonicalRecord) :
  process_item B args it = Ok r -> rec_id r = pair_id it.
Proof.
  unfold process_item. intros H.
  apply bind_ok in H. destruct H as (v1 & _ & H).
  apply bind_ok in H. destruct H as (v2 & _ & H).
  apply bind_ok in H. destruct H as (v3 & _ & H).
  inversion H. reflexivity.
Qed.

Lemma process_items_ids (args : options) (items : list ExtractedPair)
    (rs : list CanonicalRecord) :
  list_comp (process_item B args) items = Ok rs -> map rec_id rs = map pair_id items.
Proof.
  intros H. apply list_comp_ok in H.
  induction H as [ | it r items rs Hr _ IH]; simpl; [reflexivity | ].
  rewrite IH, (process_item_id _ _ _ Hr). reflexivity.
Qed.

Lemma process_item_length (args : options) (it : ExtractedPair) (r : CanonicalRecord)
    (vec : list float) :
  coerce_vector B (pair_vector it) = Ok vec ->
  process_item B args it = Ok r ->
  length (rec_vector r) = length vec.
Proof.
  unfold process_item. intros Hc H. rewrite Hc in H. simpl in H.
  apply bind_ok in H. destruct H as (v2 & Hn & H).
  apply bind_ok in H. destruct H as (v3 & Hr & H).
  inversion H. simpl. apply round_vector_length in Hr. rewrite Hr.
  destruct (normalize args).
  - destruct (normalize_vector_total vec default_eps default_eps_positive) as (w & Hw & Hl).
    congruence.
  - congruence.
Qed.

End Pipeline.

Lemma slice_to_positive {A : Type} (l : list A) (n : Z) :
  0 < n -> slice_to l n = firstn (Z.to_nat n) l.
Proof.
  intros H. unfold slice_to. destruct (n <? 0) eqn:E; [lia | reflexivity].
Qed.

Lemma surviving_positive (args : options) (items : list ExtractedPair) (n : Z) :
  max_items args = Some n -> 0 < n ->
  surviving args items
  = firstn (Z.to_nat n) (if sort args then sort_by_id items else items).
Proof.
  intros Hm Hn. unfold surviving. rewrite Hm.
  destruct (n =? 0) eqn:E; [lia | ]. apply slice_to_positive. exact Hn.
Qed.

Lemma surviving_unset (args : options) (items : list ExtractedPair) :
  max_items args = None ->
  surviving args items = if sort args then sort_by_id items else items.
Proof. intros Hm. unfold surviving. rewrite Hm. reflexivity. Qed.

Lemma surviving_nonempty (args : options) (items : list ExtractedPair) :
  (forall n, max_items args = Some n -> 0 <= n) ->
  items <> [] -> surviving args items <> [].
Proof.
  intros Hm Hi.
  assert (Hs : (if sort args then sort_by_id items else items) <> []).
  { destruct (sort args); [ | exact Hi]. intros E. apply Hi, sort_by_id_nil, E. }
  unfold surviving. destruct (max_items args) as [n | ]; [ | exact Hs].
  specialize (Hm n eq_refl). destruct (n =? 0) eqn:E; [exact Hs | ].
  rewrite slice_to_positive by lia.
  destruct (if sort args then sort_by_id items else items); [congruence | ].
  destruct (Z.to_nat n) eqn:En; [lia | ]. discriminate.
Qed.

(** ** The claims on the pipeline *)

(** C2, as stated, fails for [max_items = 0]: the guard [if args.max_items]
    reads it as unset, and the output holds every pair instead of none. *)
Lemma main_max_items_zero :
  main sample_builtins bob_alice (sorted_capped 0)
  = Ok {| version := 1; dimension := 2; count := 2;
          embeddings := [alice_record; bob_record] |}.
Proof. vm_compute. reflexivity. Qed.

(** C2 (amended). In [main] sorting precedes truncation: with [sort_by_id]
    the extracted pairs are stable-sorted by identifier (sorted for the
    lexicographic order, a permutation, equal identifiers in their original
    order), and for every positive [max_items] value [n] the records of the
    output are those of the first [n] pairs of that (possibly sorted)
    sequence, all of them when [max_items] is unset. *)
Theorem main_sort_then_truncate (B : builtins) (data : pyval) (args : options)
    (items : list ExtractedPair) :
  extract_items B data = Ok items ->
  items <> [] ->
  let sorted := if sort args then sort_by_id items else items in
  (StronglySorted id_le (sort_by_id items)
   /\ Permutation items (sort_by_id items)
   /\ forall s, filter (has_id s) (sort_by_id items) = filter (has_id s) items)
  /\ (forall n,
         max_items args = Some n -> 0 < n ->
         main B data args
         = (rs <- list_comp (process_item B args) (firstn (Z.to_nat n) sorted) ;;
            Ok (document_of rs))
         /\ forall doc,
             main B data args = Ok doc ->
             map rec_id (embeddings doc) = map pair_id (firstn (Z.to_nat n) sorted))
  /\ (max_items args = None ->
      main B data args
      = (rs <- list_comp (process_item B args) sorted ;; Ok (document_of rs))).
Proof.
  intros He Hne sorted.
  assert (Hmain : main B data args
                  = (rs <- list_comp (process_item B args) (surviving args items) ;;
                     Ok (document_of rs))).
  { rewrite main_eq, He. simpl. destruct items; [congruence | reflexivity]. }
  split; [ | split].
  - split; [apply sort_by_id_sorted | split].
    + apply sort_by_id_perm.
    + intros s. apply sort_by_id_stable.
  - intros n Hm Hn. rewrite Hmain, (surviving_positive args items n Hm Hn).
    fold sorted. split; [reflexivity | ].
    intros doc H. apply bind_ok in H. destruct H as (rs & Hrs & H).
    inversion H. simpl. apply (process_items_ids B args). exact Hrs.
  - intros Hm. rewrite Hmain, (surviving_unset args items Hm). reflexivity.
Qed.

(** With [sort_by_id] and [max_items = 1] on the identifiers [bob] and
    [alice], the output holds [alice] only. *)
Lemma main_sort_then_truncate_witness :
  extract_items sample_builtins bob_alice = Ok [bob_pair; alice_pair]
  /\ sort_by_id [bob_pair; alice_pair] = [alice_pair; bob_pair]
  /\ main sample_builtins bob_alice (sorted_capped 1)
     = Ok {| version := 1; dimension := 2; count := 1; embeddings := [alice_record] |}
  /\ main sample_builtins bob_alice (sorted_capped 1)
     = (rs <- list_comp (process_item sample_builtins (sorted_capped 1))
                (firstn 1 (sort_by_id [bob_pair; alice_pair])) ;;
        Ok (document_of rs)).
Proof.
  split; [reflexivity | split; [reflexivity | split; [vm_compute; reflexivity | ]]].
  assert (Hne : [bob_pair; alice_pair] <> []) by discriminate.
  destruct (main_sort_then_truncate sample_builtins bob_alice (sorted_capped 1)
              [bob_pair; alice_pair] eq_refl Hne) as (_ & Hcut & _).
  destruct (Hcut 1 eq_refl eq_refl) as (Hmain & _). exact Hmain.
Defined.

(** C3, as stated, fails for a negative [max_items]: [items[:-1]] of one
    pair is empty, and [main] writes a document with no record. *)
Lemma main_negative_max_items :
  main sample_builtins (PDict [(PStr "alice", floats [3; 4]%float)])
    {| precision := 6; max_items := Some (-1); sort := false; normalize := false |}
  = Ok {| version := 1; dimension := 0; count := 0; embeddings := [] |}.
Proof. vm_compute. reflexivity. Qed.

(** C3 (amended). An input whose top level is neither a [dict] nor a [list]
    fails with the unsupported-structure [ValueError], raised by
    [extract_items]; a recognised structure from which no pair is extracted,
    the empty mapping for one, fails with the distinct [sys.exit(3)]; and
    when [max_items] is unset or not negative, a document that [main]
    returns holds at least one record. *)
Theorem main_never_silently_empty (B : builtins) (data : pyval) (args : options) :
  ((forall d, data <> PDict d) -> (forall l, data <> PList l) ->
   extract_items B data = Raise unsupported_structure
   /\ main B data args = Raise unsupported_structure)
  /\ (extract_items B data = Ok [] -> main B data args = Raise no_embeddings)
  /\ main B (PDict []) args = Raise no_embeddings
  /\ unsupported_structure <> no_embeddings
  /\ (forall doc,
         (forall n, max_items args = Some n -> 0 <= n) ->
         main B data args = Ok doc ->
         embeddings doc <> [] /\ 0 < count doc).
Proof.
  split; [ | split; [ | split; [ | split]]].
  - intros Hd Hl.
    assert (E : extract_items B data = Raise unsupported_structure).
    { destruct data; try reflexivity; [elim (Hl l) | elim (Hd d)]; reflexivity. }
    split; [exact E | ]. rewrite main_eq, E. reflexivity.
  - intros E. rewrite main_eq, E. reflexivity.
  - reflexivity.
  - discriminate.
  - intros doc Hm H. apply main_ok_inv in H.
    destruct H as (items & rs & _ & Hne & Hrs & ->).
    pose proof (surviving_nonempty args items Hm Hne) as Hs.
    apply list_comp_length in Hrs. simpl.
    destruct rs as [ | r rs]; simpl in *.
    + destruct (surviving args items); [congruence | discriminate].
    + split; [discriminate | lia].
Qed.

Lemma main_never_silently_empty_witness :
  main sample_builtins (PInt 42) (sorted_capped 1) = Raise unsupported_structure
  /\ main sample_builtins (PTuple []) (sorted_capped 1) = Raise unsupported_structure
  /\ main sample_builtins (PDict []) (sorted_capped 1) = Raise no_embeddings
  /\ main sample_builtins (PList [PInt 42]) (sorted_capped 1) = Raise no_embeddings.
Proof.
  pose proof (main_never_silently_empty sample_builtins (PInt 42) (sorted_capped 1))
    as (H1 & _).
  pose proof (main_never_silently_empty sample_builtins (PTuple []) (sorted_capped 1))
    as (H2 & _).
  pose proof (main_never_silently_empty sample_builtins (PList [PInt 42]) (sorted_capped 1))
    as (_ & H3 & H4 & _).
  split; [apply H1; discriminate | split; [apply H2; discriminate | split]].
  - exact H4.
  - apply H3. reflexivity.
Defined.

(** C9. Every document that [main] returns has [version] 1, a [count] equal
    to the number of its records, and a [dimension] equal to the length of
    the vector of its first record when it has one. *)
Theorem main_document_header (B : builtins) (data : pyval) (args : options)
    (doc : OutputDocument) :
  main B data args = Ok doc ->
  version doc = 1
  /\ count doc = Z.of_nat (length (embeddings doc))
  /\ forall r rest,
      embeddings doc = r :: rest -> dimension doc = Z.of_nat (length (rec_vector r)).
Proof.
  intros H. apply main_ok_inv in H. destruct H as (items & rs & _ & _ & _ & ->).
  split; [reflexivity | split; [reflexivity | ]].
  intros r rest E. simpl in E. subst rs. reflexivity.
Qed.

Lemma main_document_header_witness :
  main sample_builtins bob_alice (sorted_capped 5)
  = Ok {| version := 1; dimension := 2; count := 2;
          embeddings := [alice_record; bob_record] |}
  /\ (2 = Z.of_nat (length [alice_record; bob_record])
      /\ forall r rest,
          [alice_record; bob_record] = r :: rest -> 2 = Z.of_nat (length (rec_vector r))).
Proof.
  assert (H : main sample_builtins bob_alice (sorted_capped 5)
              = Ok {| version := 1; dimension := 2; count := 2;
                      embeddings := [alice_record; bob_record] |})
    by (vm_compute; reflexivity).
  split; [exact H | ].
  exact (proj2 (main_document_header sample_builtins bob_alice (sorted_capped 5) _ H)).
Defined.

(** C10 (amended). [normalize_vector(v)] returns a list with as many
    elements as [v], for every list of floats [v]; a list that
    [round_vector(v, p)] returns has as many elements as [v], and it returns
    one whenever the rounding formula is defined on every component of [v]
    (on a NaN or an infinite component it raises); consequently the vector
    of a canonical record has the length of its coerced vector. *)
Theorem stages_preserve_length :
  (forall v, exists w, normalize_vector v default_eps = Ok w /\ length w = length v)
  /\ (forall v p w, round_vector v p = Ok w -> length w = length v)
  /\ (forall v p,
         Forall (fun x => exists y, half_up p x = Ok y) v ->
         exists w, round_vector v p = Ok w /\ length w = length v)
  /\ (forall B args it vec r,
         coerce_vector B (pair_vector it) = Ok vec ->
         process_item B args it = Ok r ->
         length (rec_vector r) = length vec).
Proof.
  split; [ | split; [ | split]].
  - intros v. apply normalize_vector_total, default_eps_positive.
  - apply round_vector_length.
  - intros v p Hv.
    assert (Hc : Forall (fun x => exists y, round_component (10 ^ Z.of_N p) x = Ok y) v).
    { eapply Forall_impl; [ | exact Hv]. intros x (y & Hy). exists y.
      rewrite round_component_half_up. exact Hy. }
    destruct (list_comp_defined _ v Hc) as (w & Hw).
    exists w. split; [exact Hw | ]. apply (round_vector_length v p). exact Hw.
  - intros B args it vec r. apply process_item_length.
Qed.

Lemma stages_preserve_length_witness :
  (exists w, normalize_vector [0.1; 0.2; 0.3]%float default_eps = Ok w /\ length w = 3%nat)
  /\ round_vector [0.1234567; -2.5]%float 6 = Ok [0.123457; -2.5]%float
  /\ length [0.123457; -2.5]%float = length [0.1234567; -2.5]%float.
Proof.
  destruct stages_preserve_length as (Hn & Hr & _).
  assert (E : round_vector [0.1234567; -2.5]%float 6 = Ok [0.123457; -2.5]%float)
    by (vm_compute; reflexivity).
  split; [exact (Hn [0.1; 0.2; 0.3]%float) | split; [exact E | ]].
  exact (Hr _ _ _ E).
Defined.

(** ** coerce_vector *)

(** C4, as stated, fails on an element that [float()] does not accept by
    its type: the failure is a [TypeError], not the [ValueError] of an
    unsupported vector; and the elements of an array go through [float32],
    which changes [0.1]. *)
Lemma coerce_vector_none_element :
  coerce_vector sample_builtins (PList [PFloat 1; PNone]) = Raise TypeError
  /\ coerce_vector sample_builtins (PDict []) = Raise unsupported_vector
  /\ coerce_vector sample_builtins (PNdarray [0.1%float]) = Ok [0x1.99999ap-4%float].
Proof. repeat split; vm_compute; reflexivity. Qed.

Lemma float_of_int_raises (z : Z) (e : exn) :
  float_of_int z = Raise e -> e = OverflowError.
Proof.
  unfold float_of_int. destruct (binary_normalize prec emax z 0 false);
    intros H; inversion H; reflexivity.
Qed.

(** C4 (amended). [coerce_vector] applied to a list or a tuple returns the
    sequence of [float(x)] of its elements: a float is itself, a bool is 1.0
    or 0.0, an int is its nearest float, a string is the float it parses to.
    Applied to an array it returns the elements rounded to [float32].  For
    every value of another runtime type (mappings and scalars included) it
    fails with the unsupported-vector [ValueError].  An element [float()]
    does not accept makes the call fail with what [float()] raises on the
    first such element: [TypeError] exactly for [None], for containers and
    for arrays (an array of one element included), [ValueError] for a
    string that does not parse, [OverflowError], and nothing else, for an
    int beyond the float range. *)
Theorem coerce_vector_spec (B : builtins) :
  (forall l w,
      coerce_vector B (PList l) = Ok w <-> Forall2 (fun x y => py_float B x = Ok y) l w)
  /\ (forall l, coerce_vector B (PTuple l) = coerce_vector B (PList l))
  /\ (forall a, coerce_vector B (PNdarray a) = Ok (map to_float32 a))
  /\ (forall v, is_array_like v = false -> coerce_vector B v = Raise unsupported_vector)
  /\ (forall l e,
         coerce_vector B (PList l) = Raise e <->
         exists pre x post,
           l = pre ++ x :: post
           /\ Forall (fun x' => exists y, py_float B x' = Ok y) pre
           /\ py_float B x = Raise e)
  /\ (forall f, py_float B (PFloat f) = Ok f)
  /\ (py_float B (PBool true) = Ok 1%float /\ py_float B (PBool false) = Ok 0%float)
  /\ (forall z, py_float B (PInt z) = float_of_int z)
  /\ (forall s f, str_to_float B s = Some f -> py_float B (PStr s) = Ok f)
  /\ (forall s, str_to_float B s = None -> exists msg, py_float B (PStr s) = Raise (ValueError msg))
  /\ (forall z e, py_float B (PInt z) = Raise e -> e = OverflowError)
  /\ (forall x,
         py_float B x = Raise TypeError <->
         x = PNone \/ (exists l, x = PList l \/ x = PTuple l) \/ (exists d, x = PDict d)
         \/ (exists a, x = PNdarray a)).
Proof.
  split; [intros l w; apply list_comp_ok | ].
  split; [reflexivity | ].
  split; [reflexivity | ].
  split; [intros v Hv; destruct v; try reflexivity; discriminate | ].
  split; [intros l e; apply list_comp_raise | ].
  split; [reflexivity | ].
  split; [split; reflexivity | ].
  split; [reflexivity | ].
  split; [intros s f Hs; simpl; rewrite Hs; reflexivity | ].
  split; [intros s Hs; simpl; rewrite Hs; eexists; reflexivity | ].
  split; [intros z e; apply float_of_int_raises | ].
  intros x. split.
  - destruct x as [ | b | z | f | s | l | l | d | a]; cbn [py_float]; intros H.
    + left. reflexivity.
    + discriminate.
    + apply float_of_int_raises in H. discriminate.
    + discriminate.
    + destruct (str_to_float B s); discriminate.
    + right. left. exists l. left. reflexivity.
    + right. left. exists l. right. reflexivity.
    + right. right. left. exists d. reflexivity.
    + right. right. right. exists a. reflexivity.
  - intros [-> | [(l & [-> | ->]) | [(d & ->) | (a & ->)]]]; reflexivity.
Qed.

Lemma coerce_vector_spec_witness :
  Forall2 (fun x y => py_float sample_builtins x = Ok y)
    [PInt 1; PBool true; PFloat 2.5] [1; 1; 2.5]%float
  /\ coerce_vector sample_builtins (PTuple [PInt 1; PBool true; PFloat 2.5])
     = coerce_vector sample_builtins (PList [PInt 1; PBool true; PFloat 2.5])
  /\ coerce_vector sample_builtins (PStr "abc") = Raise unsupported_vector
  /\ coerce_vector sample_builtins (PList [PFloat 1; PNdarray [1.5]%float]) = Raise TypeError.
Proof.
  destruct (coerce_vector_spec sample_builtins)
    as (Hl & Ht & _ & Ho & Hr & _ & _ & _ & _ & _ & _ & Hty).
  split; [ | split; [ | split]].
  - apply Hl. vm_compute. reflexivity.
  - apply Ht.
  - apply Ho. reflexivity.
  - apply Hr. exists [PFloat 1%float], (PNdarray [1.5]%float), [].
    split; [reflexivity | split].
    + repeat constructor. eexists. reflexivity.
    + apply Hty. right. right. right. eexists. reflexivity.
Defined.

(** ** Texts *)

Lemma decimal_nonempty (z : Z) : decimal z <> EmptyString.
Proof.
  unfold decimal. destruct (Z.to_int z) as [d | d]; simpl.
  - destruct d; discriminate.
  - discriminate.
Qed.

(** Induction on a value, its elements included. *)
Section PyvalInduction.

Variable P : pyval -> Prop.
Hypothesis HNone : P PNone.
Hypothesis HBool : forall b, P (PBool b).
Hypothesis HInt : forall z, P (PInt z).
Hypothesis HFloat : forall f, P (PFloat f).
Hypothesis HStr : forall s, P (PStr s).
Hypothesis HList : forall l, Forall P l -> P (PList l).
Hypothesis HTuple : forall l, Forall P l -> P (PTuple l).
Hypothesis HDict : forall d, Forall (fun kv => P (fst kv) /\ P (snd kv)) d -> P (PDict d).
Hypothesis HNdarray : forall a, P (PNdarray a).

Lemma pyval_nested_ind : forall v, P v.
Proof.
  fix IH 1. intros [ | b | z | f | s | l | l | d | a].
  - exact HNone.
  - apply HBool.
  - apply HInt.
  - apply HFloat.
  - apply HStr.
  - apply HList. revert l. fix IHl 1. intros [ | x l]; constructor; [apply IH | apply IHl].
  - apply HTuple. revert l. fix IHl 1. intros [ | x l]; constructor; [apply IH | apply IHl].
  - apply HDict. revert d. fix IHd 1. intros [ | [k x] d]; constructor;
      [split; apply IH | apply IHd].
  - apply HNdarray.
Qed.

End PyvalInduction.

Section Texts.

Variable B : builtins.

Lemma int_str_raises (z : Z) (e : exn) :
  int_str B z = Raise e -> e = int_too_long (int_max_str_digits B).
Proof.
  unfold int_str.
  destruct ((0 <? int_max_str_digits B)%N
            && (int_max_str_digits B <? N.of_nat (String.length (decimal (Z.abs z))))%N);
    intros H; inversion H; reflexivity.
Qed.

Lemma int_str_ok (z : Z) (s : string) : int_str B z = Ok s -> s = decimal z.
Proof.
  unfold int_str.
  destruct ((0 <? int_max_str_digits B)%N
            && (int_max_str_digits B <? N.of_nat (String.length (decimal (Z.abs z))))%N);
    intros H; inversion H; reflexivity.
Qed.

(** [repr] fails on the digits of an [int] only. *)
Lemma py_repr_raises (v : pyval) (e : exn) :
  py_repr B v = Raise e -> e = int_too_long (int_max_str_digits B).
Proof.
  revert e. induction v as [ | b | z | f | s | l IH | l IH | d IH | a] using pyval_nested_ind;
    intros e H; cbn [py_repr] in H.
  - discriminate.
  - destruct b; discriminate.
  - exact (int_str_raises z e H).
  - discriminate.
  - discriminate.
  - apply bind_raise in H. destruct H as [H | (rs & _ & H)]; [ | discriminate].
    apply list_comp_raise in H. destruct H as (pre & x & post & -> & _ & Hx).
    rewrite Forall_forall in IH. apply (IH x); [ | exact Hx].
    apply in_or_app. right. left. reflexivity.
  - apply bind_raise in H. destruct H as [H | (rs & _ & H)].
    + apply list_comp_raise in H. destruct H as (pre & x & post & -> & _ & Hx).
      rewrite Forall_forall in IH. apply (IH x); [ | exact Hx].
      apply in_or_app. right. left. reflexivity.
    + destruct rs as [ | r [ | r' rs]]; discriminate.
  - apply bind_raise in H. destruct H as [H | (rs & _ & H)]; [ | discriminate].
    apply list_comp_raise in H. destruct H as (pre & [k x] & post & -> & _ & Hx).
    rewrite Forall_forall in IH.
    destruct (IH (k, x)) as [Hk Hv]; [apply in_or_app; right; left; reflexivity | ].
    apply bind_raise in Hx. destruct Hx as [Hx | (rk & _ & Hx)]; [exact (Hk e Hx) | ].
    apply bind_raise in Hx. destruct Hx as [Hx | (rx & _ & Hx)]; [exact (Hv e Hx) | ].
    discriminate.
  - discriminate.
Qed.

Lemma py_str_raises (v : pyval) (e : exn) :
  py_str B v = Raise e -> e = int_too_long (int_max_str_digits B).
Proof.
  destruct v; try discriminate; apply py_repr_raises.
Qed.

(** The text of a true value is not empty. *)
Lemma truthy_str_nonempty (v : pyval) (s : string) :
  reprs_nonempty B -> is_true v -> py_str B v = Ok s -> s <> EmptyString.
Proof.
  intros (Hf & Ha) Hv Hs. unfold is_true in Hv.
  destruct v as [ | b | z | f | s0 | l | l | d | a]; cbn [py_str py_repr] in Hs.
  - discriminate.
  - destruct b; inversion Hs; discriminate.
  - apply int_str_ok in Hs. subst s. apply decimal_nonempty.
  - inversion Hs. apply Hf.
  - inversion Hs. subst s0. destruct s; [discriminate | discriminate].
  - apply bind_ok in Hs. destruct Hs as (rs & _ & Hs). inversion Hs. discriminate.
  - apply bind_ok in Hs. destruct Hs as (rs & _ & Hs).
    destruct rs as [ | r [ | r' rs]]; inversion Hs; discriminate.
  - apply bind_ok in Hs. destruct Hs as (rs & _ & Hs). inversion Hs. discriminate.
  - inversion Hs. apply Ha.
Qed.

End Texts.

(** ** extract_items *)

Lemma py_or_ok (a : pyval) (b : result pyval) (v : pyval) :
  py_or a b = Ok v <-> (is_true a /\ v = a) \/ (is_false a /\ b = Ok v).
Proof.
  unfold py_or, is_true, is_false. destruct (truthy a) as [[ | ] | e]; simpl; split.
  - intros H. inversion H. auto.
  - intros [(_ & ->) | (H & _)]; [reflexivity | discriminate].
  - auto.
  - intros [(H & _) | (_ & H)]; [discriminate | exact H].
  - discriminate.
  - intros [(H & _) | (H & _)]; discriminate.
Qed.

Lemma py_or_raise (a : pyval) (b : result pyval) (e : exn) :
  py_or a b = Raise e <-> truthy a = Raise e \/ (is_false a /\ b = Raise e).
Proof.
  unfold py_or, is_false. destruct (truthy a) as [[ | ] | e']; simpl; split.
  - discriminate.
  - intros [H | (H & _)]; discriminate.
  - intros H. right. auto.
  - intros [H | (_ & H)]; [discriminate | exact H].
  - intros H. left. inversion H. reflexivity.
  - intros [H | (H & _)]; [inversion H; reflexivity | discriminate].
Qed.

(** An array of no element, or of two or more, is the one value without a
    truth value. *)
Lemma truthy_raises (v : pyval) (e : exn) :
  truthy v = Raise e <->
  exists a, v = PNdarray a /\ length a <> 1%nat
            /\ e = if is_nil a then empty_array_truth else ambiguous_array_truth.
Proof.
  split.
  - destruct v as [ | | | | | | | | a]; try discriminate.
    destruct a as [ | x [ | y a]]; simpl; intros H; inversion H;
      eexists; (split; [reflexivity | split; [simpl; lia | reflexivity]]).
  - intros (a & -> & Hlen & ->). destruct a as [ | x [ | y a]]; simpl in *;
      [reflexivity | lia | reflexivity].
Qed.

(** The identifier chain of a mapping-like element: the first true value,
    or the error of the first truth value that raises. *)
Lemma id_chain_ok (d : list (pyval * pyval)) (n : nat) (vid : pyval) :
  py_or (dict_get d "id")
    (py_or (dict_get d "name")
       (py_or (dict_get d "label") (Ok (PStr ("item_" ++ decimal (Z.of_nat n))))))
  = Ok vid
  <-> resolves_id d n vid.
Proof.
  split.
  - intros H. apply py_or_ok in H. destruct H as [(H1 & ->) | (H1 & H)];
      [apply id_by_id; exact H1 | ].
    apply py_or_ok in H. destruct H as [(H2 & ->) | (H2 & H)];
      [apply id_by_name; assumption | ].
    apply py_or_ok in H. destruct H as [(H3 & ->) | (H3 & H)];
      [apply id_by_label; assumption | ].
    inversion H. apply id_synthetic; assumption.
  - unfold is_true, is_false, py_or.
    intros [H1 | H1 H2 | H1 H2 H3 | H1 H2 H3];
      rewrite ?H1; simpl; rewrite ?H2; simpl; rewrite ?H3; reflexivity.
Qed.

Lemma id_chain_raise (d : list (pyval * pyval)) (n : nat) (e : exn) :
  py_or (dict_get d "id")
    (py_or (dict_get d "name")
       (py_or (dict_get d "label") (Ok (PStr ("item_" ++ decimal (Z.of_nat n))))))
  = Raise e
  <-> id_raises d e.
Proof.
  split.
  - intros H. apply py_or_raise in H. destruct H as [H1 | (H1 & H)];
      [apply raises_at_id; exact H1 | ].
    apply py_or_raise in H. destruct H as [H2 | (H2 & H)];
      [apply raises_at_name; assumption | ].
    apply py_or_raise in H. destruct H as [H3 | (H3 & H)];
      [apply raises_at_label; assumption | discriminate].
  - unfold is_false, py_or.
    intros [H1 | H1 H2 | H1 H2 H3];
      rewrite ?H1; simpl; rewrite ?H2; simpl; rewrite ?H3; reflexivity.
Qed.

Lemma vector_chain_ok (d : list (pyval * pyval)) (vec : pyval) :
  py_or (dict_get d "embedding") (Ok (dict_get d "vector")) = Ok vec
  <-> resolves_vector d vec.
Proof.
  split.
  - intros H. apply py_or_ok in H. destruct H as [(H1 & ->) | (H1 & H)].
    + apply vector_by_embedding. exact H1.
    + inversion H. apply vector_by_vector. exact H1.
  - unfold is_true, is_false, py_or. intros [H1 | H1]; rewrite H1; reflexivity.
Qed.

Lemma vector_chain_raise (d : list (pyval * pyval)) (e : exn) :
  py_or (dict_get d "embedding") (Ok (dict_get d "vector")) = Raise e
  <-> truthy (dict_get d "embedding") = Raise e.
Proof.
  rewrite py_or_raise. split; [ | auto].
  intros [H | (_ & H)]; [exact H | discriminate].
Qed.

Lemma resolves_id_or_raises (d : list (pyval * pyval)) (n : nat) :
  (exists e, id_raises d e) \/ (exists vid, resolves_id d n vid).
Proof.
  destruct (py_or (dict_get d "id")
              (py_or (dict_get d "name")
                 (py_or (dict_get d "label") (Ok (PStr ("item_" ++ decimal (Z.of_nat n)))))))
    as [vid | e] eqn:E.
  - right. exists vid. apply (proj1 (id_chain_ok d n vid)). exact E.
  - left. exists e. apply (proj1 (id_chain_raise d n e)). exact E.
Qed.

Lemma resolves_vector_or_raises (d : list (pyval * pyval)) :
  (exists e, truthy (dict_get d "embedding") = Raise e) \/ (exists vec, resolves_vector d vec).
Proof.
  destruct (py_or (dict_get d "embedding") (Ok (dict_get d "vector"))) as [vec | e] eqn:E.
  - right. exists vec. apply vector_chain_ok. exact E.
  - left. exists e. apply vector_chain_raise. exact E.
Qed.

Section Extraction.

Variable B : builtins.

Lemma extract_entry_emitted (items : list ExtractedPair) (k v : pyval) :
  extract_entry B items k v = (ps <- emitted_for_entry B (k, v) ;; Ok (items ++ ps)).
Proof.
  assert (Hnil : Ok items = Ok (items ++ [])) by (rewrite app_nil_r; reflexivity).
  unfold extract_entry, emitted_for_entry, append_pair. cbn [fst snd].
  destruct v; cbn [discovered_vector is_array_like bind]; try exact Hnil;
    try (destruct (py_str B k); reflexivity).
  destruct (dict_lookup "embedding" d); [destruct (py_str B k); reflexivity | ].
  destruct (dict_lookup "vector" d); [destruct (py_str B k); reflexivity | ].
  destruct (filter is_array_like (map snd d)); cbn [hd_error bind];
    [exact Hnil | destruct (py_str B k); reflexivity].
Qed.

Lemma extract_mapping_emitted (items : list ExtractedPair) (d : list (pyval * pyval)) :
  extract_mapping B items d
  = (pss <- list_comp (emitted_for_entry B) d ;; Ok (items ++ concat pss)).
Proof.
  revert items. induction d as [ | [k v] d IH]; intros items; cbn [extract_mapping list_comp].
  - cbn [bind concat]. rewrite app_nil_r. reflexivity.
  - rewrite extract_entry_emitted.
    destruct (emitted_for_entry B (k, v)) as [ps | e]; cbn [bind]; [ | reflexivity].
    rewrite IH. destruct (list_comp (emitted_for_entry B) d) as [pss | e]; cbn [bind concat];
      [ | reflexivity].
    rewrite app_assoc. reflexivity.
Qed.

(** A mapping-like element whose identifier and vector are resolved. *)
Lemma extract_element_resolved (items : list ExtractedPair)
    (d : list (pyval * pyval)) (vid vec : pyval) :
  resolves_id d (length items) vid ->
  resolves_vector d vec ->
  extract_element B items (PDict d)
  = match vec with
    | PNone => Ok items
    | _ => append_pair B items vid vec
    end.
Proof.
  intros Hid Hvec. unfold extract_element.
  apply id_chain_ok in Hid. rewrite Hid. unfold bind at 1.
  apply vector_chain_ok in Hvec. rewrite Hvec. reflexivity.
Qed.

Lemma extract_element_two (items : list ExtractedPair) (el label vec : pyval) :
  two_elements el = Some (label, vec) ->
  extract_element B items el = append_pair B items label vec.
Proof.
  destruct el as [ | | | | | l | l | | ]; try discriminate;
    destruct l as [ | a [ | b [ | c l]]]; try discriminate;
    intros H; inversion H; reflexivity.
Qed.

Lemma extract_element_other_shape (items : list ExtractedPair) (el : pyval) :
  other_shape el = true -> extract_element B items el = Ok items.
Proof.
  destruct el as [ | | | | | l | l | | ]; try discriminate; try reflexivity;
    destruct l as [ | a [ | b [ | c l]]]; try discriminate; reflexivity.
Qed.

Lemma append_pair_ok (items items' : list ExtractedPair) (ident vec : pyval) :
  append_pair B items ident vec = Ok items' <->
  exists s, py_str B ident = Ok s
            /\ items' = items ++ [{| pair_id := s; pair_vector := vec |}].
Proof.
  unfold append_pair. rewrite bind_ok. split.
  - intros (s & Hs & H). inversion H. exists s. auto.
  - intros (s & Hs & ->). exists s. auto.
Qed.

Lemma append_pair_raises (items : list ExtractedPair) (ident vec : pyval) (e : exn) :
  append_pair B items ident vec = Raise e <-> py_str B ident = Raise e.
Proof.
  unfold append_pair. rewrite bind_raise. split.
  - intros [H | (s & _ & H)]; [exact H | discriminate].
  - auto.
Qed.

(** What one element of a sequence adds. *)
Lemma extract_element_emits (items items' : list ExtractedPair) (el : pyval) :
  reprs_nonempty B ->
  extract_element B items el = Ok items' ->
  exists ps, items' = items ++ ps /\ element_emits B el ps.
Proof.
  assert (Hnil : forall el', element_emits B el' [] -> Ok items = Ok items' ->
                             exists ps, items' = items ++ ps /\ element_emits B el' ps).
  { intros el' Hel H. inversion H. exists []. rewrite app_nil_r. auto. }
  intros HB H. destruct el as [ | b | z | f | s | l | l | d | a];
    try (apply Hnil; [reflexivity | exact H]).
  - destruct l as [ | label [ | vec [ | c l]]];
      try (apply Hnil; [reflexivity | exact H]).
    apply append_pair_ok in H. destruct H as (s & Hs & ->).
    eexists. split; [reflexivity | ]. exists s. auto.
  - destruct l as [ | label [ | vec [ | c l]]];
      try (apply Hnil; [reflexivity | exact H]).
    apply append_pair_ok in H. destruct H as (s & Hs & ->).
    eexists. split; [reflexivity | ]. exists s. auto.
  - unfold extract_element in H.
    apply bind_ok in H. destruct H as (vid & Hvid & H).
    apply bind_ok in H. destruct H as (vec & Hvec & H).
    assert (Hid : forall s, py_str B vid = Ok s -> s <> EmptyString).
    { intros s Hs. apply id_chain_ok in Hvid.
      destruct Hvid as [H1 | H1 H2 | H1 H2 H3 | H1 H2 H3];
        try (eapply truthy_str_nonempty; eassumption).
      inversion Hs. discriminate. }
    assert (Hsrc : vec = dict_get d "embedding" \/ vec = dict_get d "vector").
    { apply vector_chain_ok in Hvec. destruct Hvec; auto. }
    destruct vec; try (apply Hnil; [left; reflexivity | exact H]);
      apply append_pair_ok in H; destruct H as (txt & Htxt & ->);
      (eexists; split; [reflexivity | ]); right; eexists; (split; [reflexivity | ]);
      (split; [split; [exact (Hid txt Htxt) | discriminate] | exact Hsrc]).
Qed.

Lemma extract_sequence_emits (l : list pyval) (items items' : list ExtractedPair) :
  reprs_nonempty B ->
  extract_sequence B items l = Ok items' ->
  exists pss, Forall2 (element_emits B) l pss /\ items' = items ++ concat pss.
Proof.
  intros HB. revert items. induction l as [ | el l IH]; intros items H;
    cbn [extract_sequence] in H.
  - inversion H. exists []. split; [constructor | ]. rewrite app_nil_r. reflexivity.
  - apply bind_ok in H. destruct H as (items1 & H1 & H).
    destruct (extract_element_emits _ _ _ HB H1) as (ps & -> & Hps).
    destruct (IH _ H) as (pss & Hpss & ->).
    exists (ps :: pss). split; [constructor; assumption | ].
    cbn [concat]. rewrite app_assoc. reflexivity.
Qed.

(** The scan of a sequence only appends, at most one pair per element. *)
Lemma extract_sequence_appends (l : list pyval) (acc items : list ExtractedPair) :
  extract_sequence B acc l = Ok items ->
  exists added, items = acc ++ added /\ (length added <= length l)%nat.
Proof.
  revert acc. induction l as [ | el l IH]; intros acc H; cbn [extract_sequence] in H.
  - inversion H. exists []. rewrite app_nil_r. split; [reflexivity | simpl; lia].
  - apply bind_ok in H. destruct H as (acc' & Hel & H).
    apply IH in H. destruct H as (added & -> & Hlen).
    assert (Hone : exists one, acc' = acc ++ one /\ (length one <= 1)%nat).
    { assert (Hnil : Ok acc = Ok acc' ->
                     exists one, acc' = acc ++ one /\ (length one <= 1)%nat).
      { intros E. inversion E. exists []. rewrite app_nil_r. split; [reflexivity | simpl; lia]. }
      assert (Hadd : forall ident vec, append_pair B acc ident vec = Ok acc' ->
                     exists one, acc' = acc ++ one /\ (length one <= 1)%nat).
      { intros ident vec E. apply append_pair_ok in E. destruct E as (s & _ & ->).
        eexists [_]. split; [reflexivity | simpl; lia]. }
      destruct el as [ | | | | | l0 | l0 | d | ]; try (apply Hnil; exact Hel).
      - destruct l0 as [ | a [ | b [ | c l0]]]; try (apply Hnil; exact Hel).
        exact (Hadd _ _ Hel).
      - destruct l0 as [ | a [ | b [ | c l0]]]; try (apply Hnil; exact Hel).
        exact (Hadd _ _ Hel).
      - unfold extract_element in Hel.
        apply bind_ok in Hel. destruct Hel as (vid & _ & Hel).
        apply bind_ok in Hel. destruct Hel as (vec & _ & Hel).
        destruct vec; try (apply Hnil; exact Hel); exact (Hadd _ _ Hel). }
    destruct Hone as (one & -> & Hone).
    exists (one ++ added). rewrite <- app_assoc. split; [reflexivity | ].
    rewrite length_app. simpl. lia.
Qed.

(** The errors of one element: the digits of an [int] in the identifier,
    or the truth value of an array under one of the keys. *)
Lemma extract_element_raises (items : list ExtractedPair) (el : pyval) (e : exn) :
  extract_element B items el = Raise e ->
  e = int_too_long (int_max_str_digits B)
  \/ e = empty_array_truth \/ e = ambiguous_array_truth.
Proof.
  assert (Htruth : forall v, truthy v = Raise e ->
                     e = int_too_long (int_max_str_digits B)
                     \/ e = empty_array_truth \/ e = ambiguous_array_truth).
  { intros v H. apply truthy_raises in H. destruct H as (a & _ & _ & ->).
    destruct a; auto. }
  assert (Hadd : forall ident vec, append_pair B items ident vec = Raise e ->
                   e = int_too_long (int_max_str_digits B)
                   \/ e = empty_array_truth \/ e = ambiguous_array_truth).
  { intros ident vec H. apply append_pair_raises, py_str_raises in H. auto. }
  destruct el as [ | | | | | l | l | d | ]; try discriminate.
  - destruct l as [ | a [ | b [ | c l]]]; try discriminate. apply Hadd.
  - destruct l as [ | a [ | b [ | c l]]]; try discriminate. apply Hadd.
  - unfold extract_element. intros H.
    apply bind_raise in H. destruct H as [H | (vid & _ & H)].
    + apply id_chain_raise in H.
      destruct H as [H | _ H | _ _ H]; exact (Htruth _ H).
    + apply bind_raise in H. destruct H as [H | (vec & _ & H)].
      * apply vector_chain_raise in H. exact (Htruth _ H).
      * destruct vec; try discriminate; exact (Hadd _ _ H).
Qed.

Lemma extract_element_raises_value_error (items : list ExtractedPair) (el : pyval) (e : exn) :
  extract_element B items el = Raise e -> exists msg, e = ValueError msg.
Proof.
  intros H. destruct (extract_element_raises _ _ _ H) as [-> | [-> | ->]];
    eexists; reflexivity.
Qed.

End Extraction.

Lemma emitted_for_entry_ok (B : builtins) (kv : pyval * pyval) :
  (exists ps, emitted_for_entry B kv = Ok ps) <->
  discovered_vector (snd kv) = None \/ exists s, py_str B (fst kv) = Ok s.
Proof.
  unfold emitted_for_entry. destruct (discovered_vector (snd kv)) as [vec | ].
  - destruct (py_str B (fst kv)) as [s | e]; cbn [bind]; split.
    + intros _. right. exists s. reflexivity.
    + intros _. eexists. reflexivity.
    + intros (ps & H). discriminate.
    + intros [H | (s & H)]; discriminate.
  - split; [auto | ]. intros _. eexists. reflexivity.
Qed.

Lemma emitted_for_entry_raise (B : builtins) (kv : pyval * pyval) (e : exn) :
  emitted_for_entry B kv = Raise e <->
  exists vec, discovered_vector (snd kv) = Some vec /\ py_str B (fst kv) = Raise e.
Proof.
  unfold emitted_for_entry. destruct (discovered_vector (snd kv)) as [vec | ].
  - destruct (py_str B (fst kv)) as [s | e']; cbn [bind]; split.
    + discriminate.
    + intros (vec' & _ & H). discriminate.
    + intros H. inversion H. exists vec. auto.
    + intros (vec' & _ & H). inversion H. reflexivity.
  - split; [discriminate | ]. intros (vec & H & _). discriminate.
Qed.

(** C1, as stated, fails on a mapping whose key is the empty string and on
    a vector stored as [None]: the mapping path and the pair path emit what
    they find, unchecked. *)
Lemma extract_items_unchecked :
  extract_items sample_builtins
    (PDict [(PStr EmptyString, floats [1]%float); (PStr "a", PDict [(PStr "embedding", PNone)])])
  = Ok [{| pair_id := EmptyString; pair_vector := floats [1]%float |};
        {| pair_id := "a"; pair_vector := PNone |}]
  /\ extract_items sample_builtins (PList [PTuple [PStr EmptyString; PNone]])
     = Ok [{| pair_id := EmptyString; pair_vector := PNone |}].
Proof. split; vm_compute; reflexivity. Qed.

(** C1 (amended). For a mapping, [extract_items] goes through the entries
    in order: an entry with a discoverable vector (under ["embedding"],
    else under ["vector"], else the first array-like member, or the
    array-like value itself) emits the pair of [str(key)] and that value,
    an entry without one is dropped and its key is left alone; the call
    fails exactly when [str] fails on the key of an emitting entry, with
    the error of the first such key, and [str] fails on nothing but an
    [int] of more digits than the interpreter converts (a [str] key always
    has its text).  For a sequence that [extract_items] accepts, the result
    is the concatenation, element by element, of what each element emits:
    a mapping-like element nothing, or one pair with a non-empty identifier
    and a vector that is not [None], taken from its ["embedding"] or its
    ["vector"] (the text of a float and of an array being never empty); a
    two-element list or tuple the pair of [str] of its first component and
    its second component, unchecked; every other element nothing. *)
Theorem extract_items_pairs (B : builtins) :
  (forall d,
      extract_items B (PDict d)
      = (pss <- list_comp (emitted_for_entry B) d ;; Ok (concat pss)))
  /\ (forall d e,
         extract_items B (PDict d) = Raise e <->
         exists pre k v vec post,
           d = pre ++ (k, v) :: post
           /\ Forall (fun kv => discovered_vector (snd kv) = None
                                \/ exists s, py_str B (fst kv) = Ok s) pre
           /\ discovered_vector v = Some vec
           /\ py_str B k = Raise e)
  /\ (forall k v, discovered_vector v = None -> emitted_for_entry B (k, v) = Ok [])
  /\ (forall k v e,
         discovered_vector v = Some e ->
         emitted_for_entry B (k, v)
         = (s <- py_str B k ;; Ok [{| pair_id := s; pair_vector := e |}]))
  /\ (forall v e, py_str B v = Raise e -> e = int_too_long (int_max_str_digits B))
  /\ (forall s, py_str B (PStr s) = Ok s)
  /\ (reprs_nonempty B ->
      (forall l items,
          extract_items B (PList l) = Ok items ->
          exists pss, Forall2 (element_emits B) l pss /\ items = concat pss)
      /\ (forall l items,
             Forall (fun el => exists d, el = PDict d) l ->
             extract_items B (PList l) = Ok items ->
             Forall checked items)).
Proof.
  split; [ | split; [ | split; [ | split; [ | split; [ | split; [ | intros HB; split]]]]]].
  - intros d. unfold extract_items. rewrite extract_mapping_emitted. reflexivity.
  - intros d e. unfold extract_items. rewrite extract_mapping_emitted, bind_raise. split.
    + intros [H | (pss & _ & H)]; [ | discriminate].
      apply list_comp_raise in H. destruct H as (pre & [k v] & post & -> & Hpre & Hkv).
      apply emitted_for_entry_raise in Hkv. destruct Hkv as (vec & Hvec & Hk).
      exists pre, k, v, vec, post. split; [reflexivity | split; [ | auto]].
      eapply Forall_impl; [ | exact Hpre]. intros kv. apply emitted_for_entry_ok.
    + intros (pre & k & v & vec & post & -> & Hpre & Hvec & Hk). left.
      apply list_comp_raise. exists pre, (k, v), post. split; [reflexivity | split].
      * eapply Forall_impl; [ | exact Hpre]. intros kv. apply emitted_for_entry_ok.
      * apply emitted_for_entry_raise. exists vec. auto.
  - intros k v Hv. unfold emitted_for_entry. simpl. rewrite Hv. reflexivity.
  - intros k v e Hv. unfold emitted_for_entry. simpl. rewrite Hv. reflexivity.
  - apply py_str_raises.
  - reflexivity.
  - intros l items H. exact (extract_sequence_emits B l [] items HB H).
  - intros l items Hl H.
    destruct (extract_sequence_emits B l [] items HB H) as (pss & Hpss & ->).
    cbn [app]. clear H. induction Hpss as [ | el ps l pss Hel _ IH]; [constructor | ].
    inversion Hl as [ | ? ? (d & ->) Hl']; subst.
    cbn [concat]. apply Forall_app. split; [ | exact (IH Hl')].
    destruct Hel as [-> | (p & -> & Hp & _)]; [constructor | ].
    constructor; [exact Hp | constructor].
Qed.

Lemma sample_reprs_nonempty : reprs_nonempty sample_builtins.
Proof. split; intros; discriminate. Defined.

(** The mapping and the sequence of the specification's examples. *)
Lemma extract_items_pairs_witness :
  extract_items sample_builtins
    (PDict [(PStr "alice", floats [1; 2; 3]%float);
            (PStr "bob", PDict [(PStr "embedding", floats [4; 5; 6]%float)]);
            (PStr "eve", PInt 42)])
  = Ok [{| pair_id := "alice"; pair_vector := floats [1; 2; 3]%float |};
        {| pair_id := "bob"; pair_vector := floats [4; 5; 6]%float |}]
  /\ Forall checked
       [{| pair_id := "bob"; pair_vector := floats [4; 5; 6]%float |}].
Proof.
  destruct (extract_items_pairs sample_builtins) as (Hm & _ & _ & _ & _ & _ & Hseq).
  destruct (Hseq sample_reprs_nonempty) as (_ & Hs).
  split.
  - rewrite Hm. reflexivity.
  - apply (Hs [PDict [(PStr "name", PStr "bob"); (PStr "vector", floats [4; 5; 6]%float)];
               PDict [(PStr "foo", PStr "bar")]]).
    + repeat constructor; eexists; reflexivity.
    + reflexivity.
Defined.

Lemma extract_sequence_app (B : builtins) (acc : list ExtractedPair) (l1 l2 : list pyval) :
  extract_sequence B acc (l1 ++ l2)
  = (items <- extract_sequence B acc l1 ;; extract_sequence B items l2).
Proof.
  revert acc. induction l1 as [ | el l1 IH]; intros acc; [reflexivity | ].
  cbn [app extract_sequence].
  destruct (extract_element B acc el) as [acc' | e]; [ | reflexivity].
  cbn [bind]. apply IH.
Qed.

(** C5, as stated, fails on an element whose ["embedding"] is an empty
    list: the key yields a value that is not [None], and the element is
    dropped all the same, [or] passing over every false value. *)
Lemma extract_items_empty_embedding :
  dict_get [(PStr "id", PStr "a"); (PStr "embedding", PList [])] "embedding" = PList []
  /\ extract_items sample_builtins
       (PList [PDict [(PStr "id", PStr "a"); (PStr "embedding", PList [])]])
     = Ok [].
Proof. split; reflexivity. Qed.

(** C5 (amended). For sequence input, every mapping-like element falls
    under one of the cases below, [n] being the number of pairs emitted
    before it (not its index).  The keys ["id"], ["name"], ["label"] are
    asked in this order for a true value, and then ["embedding"]; a value
    has no truth value exactly when it is an array of no element or of two
    or more, and the first such value met ends the call with its
    [ValueError].  Otherwise the identifier is the first true value among
    those of the three keys, and else the synthetic ["item_<n>"]; the
    vector is the value of ["embedding"] when it is true and else the value
    of ["vector"]; the element is dropped exactly when that vector is
    [None], that is when ["embedding"] is absent or false and ["vector"] is
    absent or [None]; and otherwise the pair of [str] of the identifier and
    the vector is emitted, the error of [str] ending the call when the
    identifier has no text. *)
Theorem extract_element_mapping (B : builtins) (items : list ExtractedPair)
    (d : list (pyval * pyval)) :
  ((exists e, id_raises d e) \/ (exists vid, resolves_id d (length items) vid))
  /\ ((exists e, truthy (dict_get d "embedding") = Raise e)
      \/ (exists vec, resolves_vector d vec))
  /\ (forall v e,
         truthy v = Raise e <->
         exists a, v = PNdarray a /\ length a <> 1%nat
                   /\ e = if is_nil a then empty_array_truth else ambiguous_array_truth)
  /\ (forall e, id_raises d e -> extract_element B items (PDict d) = Raise e)
  /\ (forall vid e,
         resolves_id d (length items) vid ->
         truthy (dict_get d "embedding") = Raise e ->
         extract_element B items (PDict d) = Raise e)
  /\ (forall vid vec,
         resolves_id d (length items) vid ->
         resolves_vector d vec ->
         (vec = PNone <-> is_false (dict_get d "embedding") /\ dict_get d "vector" = PNone)
         /\ (extract_element B items (PDict d) = Ok items <-> vec = PNone)
         /\ (vec <> PNone ->
             extract_element B items (PDict d)
             = (s <- py_str B vid ;;
                Ok (items ++ [{| pair_id := s; pair_vector := vec |}]))))
  /\ (forall pre post,
         extract_sequence B [] pre = Ok items ->
         extract_items B (PList (pre ++ PDict d :: post))
         = (items' <- extract_element B items (PDict d) ;; extract_sequence B items' post)).
Proof.
  split; [apply resolves_id_or_raises | ].
  split; [apply resolves_vector_or_raises | ].
  split; [apply truthy_raises | ].
  split; [ | split; [ | split]].
  - intros e He. unfold extract_element.
    apply (proj2 (id_chain_raise d (length items) e)) in He. rewrite He. reflexivity.
  - intros vid e Hid He. unfold extract_element.
    apply id_chain_ok in Hid. rewrite Hid. unfold bind at 1.
    apply vector_chain_raise in He. rewrite He. reflexivity.
  - intros vid vec Hid Hvec.
    pose proof (extract_element_resolved B items d vid vec Hid Hvec) as E.
    split; [ | split].
    + unfold is_true, is_false in *. split.
      * intros Hn. clear E. destruct Hvec as [H1 | H1].
        -- rewrite Hn in H1. discriminate.
        -- auto.
      * intros (H1 & H2). clear E. destruct Hvec as [H3 | H3]; [congruence | exact H2].
    + rewrite E. split.
      * intros H. destruct vec; try reflexivity;
          apply append_pair_ok in H; destruct H as (txt & _ & H);
          apply (f_equal (@length _)) in H; rewrite length_app in H; simpl in H; lia.
      * intros ->. reflexivity.
    + intros Hv. rewrite E. destruct vec; try reflexivity. congruence.
  - intros pre post Hpre. unfold extract_items.
    rewrite extract_sequence_app, Hpre. reflexivity.
Qed.

(** The second element has no identifier key: one pair was emitted before
    it, and it is named [item_1], not [item_2]; an array of two elements
    under ["embedding"] ends the call. *)
Lemma extract_element_mapping_witness :
  extract_items sample_builtins
    (PList [PTuple [PStr "a"; floats [1]%float];
            PDict [(PStr "foo", PStr "bar")];
            PDict [(PStr "embedding", floats [2]%float)]])
  = Ok [{| pair_id := "a"; pair_vector := floats [1]%float |};
        {| pair_id := "item_1"; pair_vector := floats [2]%float |}]
  /\ extract_element sample_builtins []
       (PDict [(PStr "name", PStr "bob"); (PStr "embedding", PNdarray [1; 2]%float)])
     = Raise ambiguous_array_truth.
Proof.
  split.
  - destruct (extract_element_mapping sample_builtins
                [{| pair_id := "a"; pair_vector := floats [1]%float |}]
                [(PStr "embedding", floats [2]%float)])
      as (_ & _ & _ & _ & _ & Hemit & Hseq).
    destruct (Hemit (PStr "item_1") (floats [2]%float)) as (_ & _ & Hpair).
    + apply (id_synthetic _ 1); reflexivity.
    + apply vector_by_embedding; reflexivity.
    + etransitivity;
        [exact (Hseq [PTuple [PStr "a"; floats [1]%float]; PDict [(PStr "foo", PStr "bar")]]
                  [] eq_refl) | ].
      rewrite Hpair by discriminate. reflexivity.
  - destruct (extract_element_mapping sample_builtins []
                [(PStr "name", PStr "bob"); (PStr "embedding", PNdarray [1; 2]%float)])
      as (_ & _ & _ & _ & Hraise & _).
    apply (Hraise (PStr "bob")).
    + apply id_by_name; reflexivity.
    + reflexivity.
Defined.

(** ** Binary64 rounding *)

Lemma fexp_normal (e : Z) : -1021 <= e -> fexp prec emax e = e - 53.
Proof. unfold fexp, SpecFloat.emin, prec, emax. lia. Qed.

Lemma digits2_pos_bounds (m : positive) :
  2 ^ (Zpos (digits2_pos m) - 1) <= Zpos m < 2 ^ Zpos (digits2_pos m).
Proof.
  induction m as [m IH | m IH | ]; cbn [digits2_pos].
  - rewrite Pos2Z.inj_succ. change (Zpos m~1) with (2 * Zpos m + 1).
    replace (Z.succ (Zpos (digits2_pos m)) - 1) with (Z.succ (Zpos (digits2_pos m) - 1)) by lia.
    rewrite !Z.pow_succ_r by lia. lia.
  - rewrite Pos2Z.inj_succ. change (Zpos m~0) with (2 * Zpos m).
    replace (Z.succ (Zpos (digits2_pos m)) - 1) with (Z.succ (Zpos (digits2_pos m) - 1)) by lia.
    rewrite !Z.pow_succ_r by lia. lia.
  - simpl. lia.
Qed.

Lemma digits2_pos_unique (m : positive) (D : Z) :
  2 ^ (D - 1) <= Zpos m < 2 ^ D -> Zpos (digits2_pos m) = D.
Proof.
  intros H. pose proof (digits2_pos_bounds m) as Hm.
  set (D' := Zpos (digits2_pos m)) in *.
  assert (0 < D).
  { destruct (Z.ltb_spec 0 D); [assumption | ].
    rewrite (Z.pow_neg_r 2 (D - 1)) in H by lia.
    assert (2 ^ D <= 1).
    { destruct (Z.eq_dec D 0) as [-> | ]; [simpl; lia | ].
      rewrite Z.pow_neg_r by lia. lia. }
    lia. }
  assert (0 < D') by (unfold D'; lia).
  destruct (Z.lt_trichotomy D' D) as [Hlt | [Heq | Hgt]]; [ | exact Heq | ].
  - assert (2 ^ D' <= 2 ^ (D - 1)) by (apply Z.pow_le_mono_r; lia). lia.
  - assert (2 ^ D <= 2 ^ (D' - 1)) by (apply Z.pow_le_mono_r; lia). lia.
Qed.

Lemma shr_1_locates (A B : Z) (r : shr_record) :
  locates A B r -> locates A (2 * B) (shr_1 r).
Proof.
  destruct r as [m r s]. unfold locates. cbn [shr_m shr_r shr_s].
  intros (HB & Hm & Hr & Hrr & Hs).
  destruct m as [ | [p | p | ] | p]; try lia; cbn [shr_1 shr_m shr_r shr_s];
    try change (Zpos p~1) with (2 * Zpos p + 1) in *;
    try change (Zpos p~0) with (2 * Zpos p) in *;
    (split; [lia | split; [lia | split; [lia | split]]]);
    destruct r, s; cbn [orb]; split; intros; try discriminate; try reflexivity;
    try lia;
    try (exfalso; assert (Hx : true = true) by reflexivity;
         assert (Hy : false = false) by reflexivity; lia).
Qed.

Lemma iter_pos_shr_1_locates (d : positive) (A B : Z) (r : shr_record) :
  locates A B r -> locates A (B * 2 ^ Zpos d) (iter_pos shr_1 d r).
Proof.
  revert B r. induction d as [d IH | d IH | ]; intros B r H; cbn [iter_pos].
  - apply shr_1_locates in H. apply IH in H. apply IH in H.
    replace (B * 2 ^ Zpos d~1) with (2 * B * 2 ^ Zpos d * 2 ^ Zpos d); [exact H | ].
    change (Zpos d~1) with (2 * Zpos d + 1).
    replace (2 * Zpos d + 1) with (Zpos d + Zpos d + 1) by lia.
    rewrite !Z.pow_add_r by lia. change (2 ^ 1) with 2. ring.
  - apply IH in H. apply IH in H.
    replace (B * 2 ^ Zpos d~0) with (B * 2 ^ Zpos d * 2 ^ Zpos d); [exact H | ].
    change (Zpos d~0) with (2 * Zpos d).
    replace (2 * Zpos d) with (Zpos d + Zpos d) by lia.
    rewrite !Z.pow_add_r by lia. ring.
  - apply shr_1_locates in H. change (2 ^ 1) with 2.
    replace (B * 2) with (2 * B) by ring. exact H.
Qed.

(** Shifting by [n >= 0] bits. *)
Lemma shr_locates (A B : Z) (r : shr_record) (e n : Z) :
  0 <= n -> locates A B r ->
  locates A (B * 2 ^ n) (fst (shr r e n)) /\ snd (shr r e n) = e + n.
Proof.
  intros Hn H. unfold shr. destruct n as [ | n | n]; simpl fst; simpl snd.
  - rewrite Z.mul_1_r. split; [exact H | lia].
  - split; [apply iter_pos_shr_1_locates; exact H | reflexivity].
  - lia.
Qed.

Lemma locates_unique (A B : Z) (r : shr_record) :
  locates A B r -> shr_m r = A / B.
Proof.
  intros (HB & _ & Hr & _). apply Z.div_unique with (r := A - shr_m r * B); lia.
Qed.

(** Rounding to nearest even moves to one of the two neighbours and stays
    within half a unit; an exact ratio is kept. *)
Lemma round_nearest_even_locates (A B : Z) (r : shr_record) :
  locates A B r ->
  let m := round_nearest_even (shr_m r) (loc_of_shr_record r) in
  (m = shr_m r \/ m = shr_m r + 1)
  /\ 2 * Z.abs (m * B - A) <= B
  /\ (A = shr_m r * B -> m = shr_m r).
Proof.
  destruct r as [m r s]. unfold locates. cbn [shr_m shr_r shr_s].
  intros (HB & Hm & Hr & Hrr & Hs).
  assert (Ht : true = true) by reflexivity.
  assert (Hf : false = false) by reflexivity.
  destruct r, s; cbn [loc_of_shr_record round_nearest_even].
  - split; [right; reflexivity | split; lia].
  - assert (2 * (A - m * B) = B) by lia.
    destruct (Z.even m); (split; [auto | split; lia]).
  - split; [left; reflexivity | split; lia].
  - split; [left; reflexivity | split; lia].
Qed.

Lemma pow2_pos (e : Z) : 0 <= e -> 0 < 2 ^ e.
Proof. intros H. apply Z.pow_pos_nonneg; lia. Qed.

(** [binary_round_aux] in the normal range, on a mantissa of at least 53
    bits that locates [A / B]: the result is the ratio [A / (B * 2^d)]
    rounded to an integer, at the exponent [ex + d], renormalised by one bit
    ([c = 1]) when the rounding reaches [2^53]. *)
Lemma binary_round_aux_normal (sx : bool) (mx : positive) (ex : Z) (lx : location)
    (A B : Z) :
  let d := Zpos (digits2_pos mx) - 53 in
  0 <= d -> -1074 <= ex + d ->
  locates A B (shr_record_of_loc (Zpos mx) lx) ->
  exists (m : positive) (c : Z),
    binary_round_aux prec emax sx (Zpos mx) ex lx
    = (if ex + d + c <=? 971 then S754_finite sx m (ex + d + c) else S754_infinity sx)
    /\ 2 ^ 52 <= Zpos m < 2 ^ 53
    /\ (c = 0 \/ c = 1)
    /\ (Zpos m * 2 ^ c = A / (B * 2 ^ d) \/ Zpos m * 2 ^ c = A / (B * 2 ^ d) + 1)
    /\ 2 * Z.abs (Zpos m * 2 ^ c * (B * 2 ^ d) - A) <= B * 2 ^ d
    /\ (A = A / (B * 2 ^ d) * (B * 2 ^ d) -> Zpos m * 2 ^ c = A / (B * 2 ^ d))
    /\ A / (B * 2 ^ d) = Zpos mx / 2 ^ d.
Proof.
  intros d Hd He Hloc.
  pose proof (digits2_pos_bounds mx) as Hdig.
  pose proof (pow2_pos d Hd) as Hpd.
  assert (HB : 0 < B) by (destruct Hloc as (HB & _); exact HB).
  assert (Hmx : Zpos mx = A / B).
  { apply locates_unique in Hloc. destruct lx as [ | [ | | ]]; exact Hloc. }
  assert (Hm1 : A / (B * 2 ^ d) = Zpos mx / 2 ^ d).
  { rewrite Hmx. symmetry. apply Z.div_div; lia. }
  assert (Hm1b : 2 ^ 52 <= A / (B * 2 ^ d) < 2 ^ 53).
  { rewrite Hm1.
    replace (Zpos (digits2_pos mx) - 1) with (52 + d) in Hdig by (unfold d; lia).
    replace (Zpos (digits2_pos mx)) with (53 + d) in Hdig by (unfold d; lia).
    rewrite !Z.pow_add_r in Hdig by lia.
    split; [apply Z.div_le_lower_bound | apply Z.div_lt_upper_bound]; lia. }
  unfold binary_round_aux, shr_fexp at 1. cbn [Zdigits2].
  rewrite fexp_normal by (unfold d in He; lia).
  replace (Zpos (digits2_pos mx) + ex - 53 - ex) with d by (unfold d; lia).
  destruct (shr_locates A B _ ex d Hd Hloc) as (Hloc' & He').
  destruct (shr (shr_record_of_loc (Zpos mx) lx) ex d) as [mrs' e'].
  cbn [fst snd] in Hloc', He'. subst e'.
  pose proof (locates_unique _ _ _ Hloc') as Hm.
  destruct (round_nearest_even_locates _ _ _ Hloc') as (Hm2 & Herr & Hex).
  set (m2 := round_nearest_even (shr_m mrs') (loc_of_shr_record mrs')) in *.
  rewrite Hm in Hm2, Hex.
  set (m1 := A / (B * 2 ^ d)) in *.
  assert (Hm2b : 2 ^ 52 <= m2 <= 2 ^ 53) by lia.
  destruct m2 as [ | p | p] eqn:Ep; try lia.
  destruct (Z.ltb_spec (Zpos p) (2 ^ 53)) as [Hlt | Hge].
  - exists p, 0. rewrite Z.add_0_r, Z.mul_1_r.
    assert (Hp : Zpos (digits2_pos p) = 53) by (apply digits2_pos_unique; simpl; lia).
    unfold shr_fexp. cbn [Zdigits2]. rewrite Hp, fexp_normal by lia.
    replace (53 + (ex + d) - 53 - (ex + d)) with 0 by lia.
    cbn [shr shr_record_of_loc shr_m].
    change (Z.sub emax prec) with 971.
    repeat split; auto; lia.
  - assert (Hp : p = (2 ^ 53)%positive) by (apply Pos2Z.inj; change (Zpos (2 ^ 53)) with (2 ^ 53); lia).
    subst p. exists (2 ^ 52)%positive, 1.
    change (Zpos (2 ^ 52) * 2 ^ 1) with (Zpos (2 ^ 53)).
    unfold shr_fexp. cbn [Zdigits2].
    change (Zpos (digits2_pos (2 ^ 53))) with 54. rewrite fexp_normal by lia.
    replace (54 + (ex + d) - 53 - (ex + d)) with 1 by lia.
    change (Z.sub emax prec) with 971.
    split; [reflexivity | ].
    split; [split; [reflexivity | reflexivity] | ].
    split; [right; reflexivity | ].
    split; [exact Hm2 | split; [exact Herr | split; [exact Hex | exact Hm1]]].
Qed.

Lemma valid_binary_normal (s : bool) (m : positive) (e : Z) :
  2 ^ 52 <= Zpos m < 2 ^ 53 -> -1074 <= e <= 971 ->
  valid_binary (S754_finite s m e) = true.
Proof.
  intros Hm He. unfold SpecFloat.valid_binary, bounded, canonical_mantissa.
  rewrite (digits2_pos_unique m 53) by (simpl; lia).
  rewrite fexp_normal by lia. change (Z.sub emax prec) with 971.
  apply andb_true_iff. split; [apply Z.eqb_eq | apply Z.leb_le]; lia.
Qed.

Lemma locates_exact (m : Z) : 0 <= m -> locates m 1 (shr_record_of_loc m loc_Exact).
Proof.
  intros H. unfold locates. cbn [shr_record_of_loc shr_m shr_r shr_s].
  repeat split; try lia; try discriminate; auto.
Qed.

Lemma pow2_split (a b : Z) : 0 <= a -> 0 <= b -> 2 ^ (a + b) = 2 ^ a * 2 ^ b.
Proof. intros. apply Z.pow_add_r; assumption. Qed.

(** Rounding an integer mantissa of at least 53 bits keeps the value between
    two bounds [lo * 2^g] and [hi * 2^g] that hold before rounding. *)
Lemma binary_round_aux_bracket (sx : bool) (mx : positive) (ex lo hi g : Z) :
  let d := Zpos (digits2_pos mx) - 53 in
  0 <= d -> -1074 <= ex + d -> ex <= g -> g <= 971 ->
  0 < hi < 2 ^ 53 ->
  lo * 2 ^ (g - ex) <= Zpos mx <= hi * 2 ^ (g - ex) ->
  exists (m : positive) (e : Z),
    binary_round_aux prec emax sx (Zpos mx) ex loc_Exact = S754_finite sx m e
    /\ 2 ^ 52 <= Zpos m < 2 ^ 53
    /\ -1074 <= e <= g
    /\ lo * 2 ^ (g - e) <= Zpos m <= hi * 2 ^ (g - e).
Proof.
  intros d Hd He Hg Hg' Hhi Hb.
  destruct (binary_round_aux_normal sx mx ex loc_Exact (Zpos mx) 1 Hd He
              (locates_exact _ (Pos2Z.is_nonneg mx)))
    as (m & c & Hr & Hm & Hc & Hm2 & _ & Hex & Hm1).
  fold d in Hr, Hm2, Hex, Hm1. rewrite Z.mul_1_l in *.
  pose proof (pow2_pos d Hd) as Hpd.
  set (m1 := Zpos mx / 2 ^ d) in *.
  assert (Hdiv : m1 * 2 ^ d <= Zpos mx < (m1 + 1) * 2 ^ d).
  { unfold m1. pose proof (Z.div_mod (Zpos mx) (2 ^ d)).
    pose proof (Z.mod_pos_bound (Zpos mx) (2 ^ d)). lia. }
  assert (Hm1b : 2 ^ 52 <= m1).
  { destruct Hc as [-> | ->]; [rewrite Z.mul_1_r in * | change (2 ^ 1) with 2 in *].
    - destruct Hm2 as [E | E]; [lia | ].
      destruct (Z.eq_dec (Zpos m) (2 ^ 52)); [ | lia].
      pose proof (digits2_pos_bounds mx) as Hdig.
      replace (Zpos (digits2_pos mx) - 1) with (52 + d) in Hdig by (unfold d; lia).
      rewrite pow2_split in Hdig by lia.
      assert (2 ^ 52 <= m1); [ | lia].
      apply Z.div_le_lower_bound; lia.
    - lia. }
  pose proof (pow2_pos (g - ex) ltac:(lia)) as Hpg.
  assert (He1 : ex + d <= g).
  { destruct (Z.le_gt_cases (ex + d) g) as [ | Hgt]; [assumption | exfalso].
    assert (2 ^ (g - ex + 1) <= 2 ^ d) by (apply Z.pow_le_mono_r; lia).
    rewrite pow2_split in H by lia. change (2 ^ 1) with 2 in H.
    assert (2 ^ 52 * 2 ^ d <= m1 * 2 ^ d) by (apply Z.mul_le_mono_nonneg_r; lia).
    assert (hi * 2 ^ (g - ex) < 2 ^ 53 * 2 ^ (g - ex)) by (apply Z.mul_lt_mono_pos_r; lia).
    change (2 ^ 53) with (2 ^ 52 * 2) in *. nia. }
  set (j := g - (ex + d)).
  assert (Hj : 0 <= j) by (unfold j; lia).
  pose proof (pow2_pos j Hj) as Hpj.
  assert (Hsplit : 2 ^ (g - ex) = 2 ^ j * 2 ^ d).
  { rewrite <- pow2_split by lia. f_equal. unfold j. lia. }
  rewrite Hsplit in Hb.
  assert (Hlo : lo * 2 ^ j <= m1).
  { unfold m1. apply Z.div_le_lower_bound; [lia | ]. lia. }
  assert (Hhi1 : m1 <= hi * 2 ^ j).
  { unfold m1. apply Z.div_le_upper_bound; [lia | ]. lia. }
  assert (Hm2b : lo * 2 ^ j <= Zpos m * 2 ^ c <= hi * 2 ^ j).
  { destruct Hm2 as [E | E]; [lia | ].
    destruct (Z.eq_dec m1 (hi * 2 ^ j)) as [E1 | ]; [ | lia].
    assert (Zpos mx = m1 * 2 ^ d) by (rewrite E1 in *; lia).
    specialize (Hex H). lia. }
  destruct Hc as [-> | ->].
  - exists m, (ex + d). rewrite Z.add_0_r in Hr. rewrite Z.mul_1_r in Hm2b.
    destruct (Z.leb_spec (ex + d) 971); [ | lia].
    fold j. repeat split; try assumption; lia.
  - change (2 ^ 1) with 2 in *.
    assert (Hj1 : 1 <= j).
    { destruct (Z.eq_dec j 0) as [E | ]; [ | lia]. rewrite E in *. simpl in *. lia. }
    exists m, (ex + d + 1).
    destruct (Z.leb_spec (ex + d + 1) 971); [ | lia].
    replace (g - (ex + d + 1)) with (j - 1) by (unfold j; lia).
    replace j with (1 + (j - 1)) in Hm2b by lia.
    rewrite pow2_split in Hm2b by lia. change (2 ^ 1) with 2 in Hm2b.
    repeat split; try assumption; lia.
Qed.

Lemma iter_xO_value (m k : positive) : Zpos (Pos.iter xO m k) = Zpos m * 2 ^ Zpos k.
Proof.
  revert m. induction k as [k IH | k IH | ]; intros m; cbn [Pos.iter].
  - change (Zpos (Pos.iter xO (Pos.iter xO m k) k)~0)
      with (2 * Zpos (Pos.iter xO (Pos.iter xO m k) k)).
    rewrite !IH. change (Zpos k~1) with (2 * Zpos k + 1).
    replace (2 * Zpos k + 1) with (Zpos k + Zpos k + 1) by lia.
    rewrite !Z.pow_add_r by lia. change (2 ^ 1) with 2. ring.
  - rewrite !IH. change (Zpos k~0) with (2 * Zpos k).
    replace (2 * Zpos k) with (Zpos k + Zpos k) by lia.
    rewrite !Z.pow_add_r by lia. ring.
  - change (Zpos m~0) with (2 * Zpos m). change (2 ^ 1) with 2. ring.
Qed.

(** The same for [binary_round], which first pads a short mantissa. *)
Lemma binary_round_bracket (sx : bool) (mx : positive) (ex lo hi g : Z) :
  -1074 <= Zpos (digits2_pos mx) + ex - 53 -> ex <= g -> g <= 971 ->
  0 < hi < 2 ^ 53 ->
  lo * 2 ^ (g - ex) <= Zpos mx <= hi * 2 ^ (g - ex) ->
  exists (m : positive) (e : Z),
    binary_round prec emax sx mx ex = S754_finite sx m e
    /\ 2 ^ 52 <= Zpos m < 2 ^ 53
    /\ -1074 <= e <= g
    /\ lo * 2 ^ (g - e) <= Zpos m <= hi * 2 ^ (g - e).
Proof.
  intros Hn Hg Hg' Hhi Hb. unfold binary_round.
  rewrite fexp_normal by lia. unfold shl_align.
  pose proof (digits2_pos_bounds mx) as Hdig.
  set (D := Zpos (digits2_pos mx)) in *.
  destruct (D + ex - 53 - ex) as [ | k | k] eqn:Ek.
  - apply binary_round_aux_bracket; fold D; try lia.
  - apply binary_round_aux_bracket; fold D; try lia.
  - assert (Hk : Zpos k = 53 - D) by lia.
    pose proof (pow2_pos (Zpos k) ltac:(lia)) as Hpk.
    pose proof (pow2_pos (g - ex) ltac:(lia)) as Hpg.
    assert (Hv : Zpos (Pos.iter xO mx k) = Zpos mx * 2 ^ Zpos k) by apply iter_xO_value.
    assert (Hd : Zpos (digits2_pos (Pos.iter xO mx k)) = 53).
    { apply digits2_pos_unique. rewrite Hv.
      replace 53 with (D + Zpos k) at 2 by lia.
      replace (53 - 1) with (D - 1 + Zpos k) by lia.
      rewrite !pow2_split by lia. nia. }
    apply binary_round_aux_bracket; rewrite ?Hd; try lia.
    rewrite Hv.
    replace (g - (D + ex - 53)) with (g - ex + Zpos k) by lia.
    rewrite pow2_split by lia. nia.
Qed.

Lemma new_location_locates (A B q r : Z) :
  0 < B -> 0 <= q -> A = B * q + r -> 0 <= r < B ->
  locates A B (shr_record_of_loc q (new_location B r)).
Proof.
  intros HB Hq HA Hr. unfold locates.
  assert (Ht : true = true) by reflexivity.
  assert (Hf : false = false) by reflexivity.
  unfold new_location, new_location_even, new_location_odd.
  destruct (Z.even B) eqn:Eb.
  - destruct (Z.eqb_spec r 0) as [E0 | N0].
    + cbn [shr_record_of_loc shr_m shr_r shr_s].
      repeat split; intros; try lia; try discriminate; auto.
    + destruct (Z.compare_spec (2 * r) B);
        cbn [shr_record_of_loc shr_m shr_r shr_s];
        repeat split; intros; try lia; try discriminate; auto.
  - assert (Hodd : 2 * r <> B).
    { intros E. rewrite <- E, Z.even_mul in Eb. discriminate. }
    destruct (Z.eqb_spec r 0) as [E0 | N0].
    + cbn [shr_record_of_loc shr_m shr_r shr_s].
      repeat split; intros; try lia; try discriminate; auto.
    + destruct (Z.compare_spec (2 * r + 1) B);
        cbn [shr_record_of_loc shr_m shr_r shr_s];
        repeat split; intros; try lia; try discriminate; auto.
Qed.

(** The quotient of two integers, correctly rounded, for a dividend below
    [2^51] and a divisor below [2^74]: a normal float within half a unit in
    the last place of the quotient. *)
Lemma SFdiv_int_normal (sa : bool) (a b : positive) :
  Zpos a < 2 ^ 51 -> Zpos b < 2 ^ 74 ->
  exists (m : positive) (k : Z),
    SFdiv prec emax (S754_finite sa a 0) (S754_finite false b 0) = S754_finite sa m (- k)
    /\ 2 ^ 52 <= Zpos m < 2 ^ 53
    /\ 1 <= k <= 127
    /\ 2 * Z.abs (Zpos m * Zpos b - Zpos a * 2 ^ k) <= Zpos b.
Proof.
  intros Ha Hb.
  pose proof (digits2_pos_bounds a) as Hda. pose proof (digits2_pos_bounds b) as Hdb.
  set (d1 := Zpos (digits2_pos a)) in *. set (d2 := Zpos (digits2_pos b)) in *.
  assert (Hd1 : 1 <= d1 <= 51).
  { split; [unfold d1; lia | ].
    destruct (Z.le_gt_cases d1 51); [assumption | ].
    assert (2 ^ 51 <= 2 ^ (d1 - 1)) by (apply Z.pow_le_mono_r; lia). lia. }
  assert (Hd2 : 1 <= d2 <= 74).
  { split; [unfold d2; lia | ].
    destruct (Z.le_gt_cases d2 74); [assumption | ].
    assert (2 ^ 74 <= 2 ^ (d2 - 1)) by (apply Z.pow_le_mono_r; lia). lia. }
  unfold SFdiv, SFdiv_core_binary. cbn [Zdigits2]. fold d1 d2.
  rewrite xorb_false_r, !Z.add_0_r, fexp_normal by lia.
  change (0 - 0) with 0.
  rewrite Z.min_l by lia.
  set (s := 53 + d2 - d1).
  replace (0 - (d1 - d2 - 53)) with s by (unfold s; lia).
  assert (Hs : 0 < s) by (unfold s; lia).
  destruct s as [ | sp | sp] eqn:Es; try lia. rewrite <- Es in *.
  rewrite Z.shiftl_mul_pow2 by lia.
  pose proof (pow2_pos s ltac:(lia)) as Hps.
  pose proof (Z_div_mod (Zpos a * 2 ^ s) (Zpos b) ltac:(lia)) as Hqr.
  destruct (Z.div_eucl (Zpos a * 2 ^ s) (Zpos b)) as [q r].
  destruct Hqr as (Hq & Hr).
  (* the quotient has 53 or 54 bits *)
  assert (Hpa : 2 ^ (d1 - 1) * 2 ^ s = 2 ^ 52 * 2 ^ d2).
  { rewrite <- !pow2_split by lia. f_equal. unfold s. lia. }
  assert (Hpa' : 2 ^ d1 * 2 ^ s = 2 ^ 54 * 2 ^ (d2 - 1)).
  { rewrite <- !pow2_split by lia. f_equal. unfold s. lia. }
  assert (Hq1 : 2 ^ 52 <= q < 2 ^ 54).
  { assert (2 ^ (d1 - 1) * 2 ^ s <= Zpos a * 2 ^ s)
      by (apply Z.mul_le_mono_nonneg_r; lia).
    assert (Zpos a * 2 ^ s < 2 ^ d1 * 2 ^ s) by (apply Z.mul_lt_mono_pos_r; lia).
    assert (2 ^ 52 * Zpos b < 2 ^ 52 * 2 ^ d2) by (apply Z.mul_lt_mono_pos_l; lia).
    assert (2 ^ 54 * 2 ^ (d2 - 1) <= 2 ^ 54 * Zpos b)
      by (apply Z.mul_le_mono_nonneg_l; lia).
    split; nia. }
  destruct q as [ | qp | qp]; try lia.
  assert (Hdq : Zpos (digits2_pos qp) = 53 \/ Zpos (digits2_pos qp) = 54).
  { destruct (Z.lt_ge_cases (Zpos qp) (2 ^ 53)).
    - left. apply digits2_pos_unique. simpl. lia.
    - right. apply digits2_pos_unique. simpl. lia. }
  assert (Hloc : locates (Zpos a * 2 ^ s) (Zpos b)
                   (shr_record_of_loc (Zpos qp) (new_location (Zpos b) r))).
  { apply new_location_locates; lia. }
  destruct (binary_round_aux_normal sa qp (d1 - d2 - 53) _ _ _
              ltac:(lia) ltac:(lia) Hloc)
    as (m & c & Hres & Hm & Hc & _ & Herr & _).
  set (d := Zpos (digits2_pos qp) - 53) in *.
  assert (Hd : d = 0 \/ d = 1) by (unfold d; lia).
  set (k := s - d - c).
  exists m, k.
  assert (Hk : 1 <= k <= 127) by (unfold k, s; lia).
  replace (d1 - d2 - 53 + d + c) with (- k) in Hres by (unfold k, s; lia).
  destruct (Z.leb_spec (- k) 971); [ | lia].
  split; [exact Hres | split; [exact Hm | split; [exact Hk | ]]].
  assert (Hsk : 2 ^ s = 2 ^ k * (2 ^ c * 2 ^ d)).
  { rewrite <- !pow2_split by lia. f_equal. unfold k. lia. }
  rewrite Hsk in Herr.
  replace (Zpos m * 2 ^ c * (Zpos b * 2 ^ d) - Zpos a * (2 ^ k * (2 ^ c * 2 ^ d)))
    with ((2 ^ c * 2 ^ d) * (Zpos m * Zpos b - Zpos a * 2 ^ k)) in Herr by ring.
  pose proof (pow2_pos k ltac:(lia)) as Hpk.
  rewrite Z.abs_mul, (Z.abs_eq (2 ^ c * 2 ^ d)) in Herr
    by (destruct Hc as [-> | ->]; destruct Hd as [-> | ->]; simpl; lia).
  pose proof (Z.abs_nonneg (Zpos m * Zpos b - Zpos a * 2 ^ k)) as Hx.
  set (X := Z.abs (Zpos m * Zpos b - Zpos a * 2 ^ k)) in *.
  clearbody X d. clear Hsk Hres.
  destruct Hc as [-> | ->]; destruct Hd as [-> | ->];
    change (2 ^ 0) with 1 in Herr; change (2 ^ 1) with 2 in Herr; lia.
Qed.

(** Multiplying the rounded quotient [a / F] back by [F]: the product is
    within a quarter of [a], before and after rounding. *)
Lemma SFmul_near_int (sy : bool) (my mF : positive) (k eF a F : Z) :
  1 <= a < 2 ^ 51 -> 0 < F ->
  2 ^ 52 <= Zpos my < 2 ^ 53 -> 1 <= k <= 127 ->
  2 * Z.abs (Zpos my * F - a * 2 ^ k) <= F ->
  2 ^ 52 <= Zpos mF < 2 ^ 53 -> -52 <= eF <= 21 ->
  Zpos mF * 2 ^ (eF + 52) = F * 2 ^ 52 ->
  exists (mt : positive) (et : Z),
    SFmul prec emax (S754_finite sy my (- k)) (S754_finite false mF eF)
    = S754_finite sy mt et
    /\ 2 ^ 52 <= Zpos mt < 2 ^ 53
    /\ -1074 <= et <= -2
    /\ (4 * a - 1) * 2 ^ (-2 - et) <= Zpos mt <= (4 * a + 1) * 2 ^ (-2 - et).
Proof.
  intros Ha HF Hmy Hk Herr HmF HeF HF2.
  pose proof (pow2_pos k ltac:(lia)) as Hpk.
  pose proof (pow2_pos (eF + 52) ltac:(lia)) as HpW.
  set (W := 2 ^ (eF + 52)) in *. set (K := 2 ^ k) in *.
  set (M := Zpos my * Zpos mF).
  change (2 ^ 51) with 2251799813685248 in Ha.
  assert (HaK : a * K <= 2251799813685247 * K)
    by (apply Z.mul_le_mono_nonneg_r; lia).
  (* the error of the quotient is below a quarter *)
  assert (H2F : 2 * F < K).
  { destruct (Z.lt_ge_cases (2 * F) K) as [ | Hge]; [assumption | exfalso].
    assert (H1 : 2 ^ 52 * F <= Zpos my * F) by (apply Z.mul_le_mono_nonneg_r; lia).
    change (2 ^ 52) with 4503599627370496 in H1. lia. }
  assert (Hq : (4 * a - 1) * K < 4 * (Zpos my * F) < (4 * a + 1) * K) by lia.
  (* in terms of the product of the mantissas *)
  assert (HMW : M * W = Zpos my * F * 2 ^ 52).
  { unfold M. replace (Zpos my * F * 2 ^ 52) with (Zpos my * (F * 2 ^ 52)) by ring.
    rewrite <- HF2. ring. }
  assert (HM : 2 ^ 104 <= M < 2 ^ 106).
  { unfold M. change (2 ^ 104) with (2 ^ 52 * 2 ^ 52).
    change (2 ^ 106) with (2 ^ 53 * 2 ^ 53). split.
    - apply Z.mul_le_mono_nonneg; lia.
    - apply Z.mul_lt_mono_nonneg; lia. }
  assert (Hq52 : (4 * a - 1) * K * 2 ^ 52 < 4 * (M * W) < (4 * a + 1) * K * 2 ^ 52).
  { rewrite HMW. change (2 ^ 52) with 4503599627370496. lia. }
  assert (Hw : eF + 54 <= k).
  { destruct (Z.le_gt_cases (eF + 54) k) as [ | Hgt]; [assumption | exfalso].
    assert (HKW : K <= 2 * W).
    { unfold K, W. change 2 with (2 ^ 1) at 2. rewrite <- pow2_split by lia.
      apply Z.pow_le_mono_r; lia. }
    assert (H3 : 2 ^ 104 * W <= M * W) by (apply Z.mul_le_mono_nonneg_r; lia).
    change (2 ^ 104) with 20282409603651670423947251286016 in H3.
    change (2 ^ 52) with 4503599627370496 in Hq52. lia. }
  set (w := k - eF - 2).
  pose proof (pow2_pos w ltac:(unfold w; lia)) as Hpw.
  assert (HKw : K * 2 ^ 52 = 4 * (2 ^ w * W)).
  { unfold K, W. change 4 with (2 ^ 2). rewrite <- !pow2_split by (unfold w; lia).
    f_equal. unfold w. lia. }
  assert (HMb : (4 * a - 1) * 2 ^ w <= M <= (4 * a + 1) * 2 ^ w).
  { replace ((4 * a - 1) * K * 2 ^ 52) with (4 * ((4 * a - 1) * 2 ^ w * W)) in Hq52
      by (transitivity ((4 * a - 1) * (K * 2 ^ 52)); [rewrite HKw; ring | ring]).
    replace ((4 * a + 1) * K * 2 ^ 52) with (4 * ((4 * a + 1) * 2 ^ w * W)) in Hq52
      by (transitivity ((4 * a + 1) * (K * 2 ^ 52)); [rewrite HKw; ring | ring]).
    destruct Hq52 as [Hlo Hhi].
    assert (Hlo' : (4 * a - 1) * 2 ^ w * W < M * W) by lia.
    assert (Hhi' : M * W < (4 * a + 1) * 2 ^ w * W) by lia.
    apply Z.mul_lt_mono_pos_r in Hlo'; [ | exact HpW].
    apply Z.mul_lt_mono_pos_r in Hhi'; [ | exact HpW].
    lia. }
  assert (Hd : Zpos (digits2_pos (my * mF)) = 105 \/ Zpos (digits2_pos (my * mF)) = 106).
  { fold M in HM. unfold M in HM. rewrite <- Pos2Z.inj_mul in HM.
    destruct (Z.lt_ge_cases (Zpos (my * mF)) (2 ^ 105)).
    - left. apply digits2_pos_unique. simpl. lia.
    - right. apply digits2_pos_unique. simpl. lia. }
  unfold SFmul. rewrite xorb_false_r.
  apply binary_round_aux_bracket; try lia.
  replace (-2 - (- k + eF)) with w by (unfold w; lia).
  rewrite Pos2Z.inj_mul. exact HMb.
Qed.

Lemma shl_align_value (mx : positive) (ex ex' : Z) :
  ex' <= ex -> Zpos (fst (shl_align mx ex ex')) = Zpos mx * 2 ^ (ex - ex').
Proof.
  intros H. unfold shl_align. destruct (ex' - ex) as [ | c | c] eqn:E; cbn [fst].
  - replace (ex - ex') with 0 by lia. simpl. lia.
  - lia.
  - rewrite iter_xO_value. f_equal. f_equal. lia.
Qed.

(** Adding a half to a float within a quarter of the integer [n], [n] not
    zero, and taking the floor gives [n] back. *)
Lemma SFadd_half_floor (st : bool) (mt : positive) (et a : Z) :
  1 <= a < 2 ^ 51 ->
  2 ^ 52 <= Zpos mt < 2 ^ 53 -> -1074 <= et <= -2 ->
  (4 * a - 1) * 2 ^ (-2 - et) <= Zpos mt <= (4 * a + 1) * 2 ^ (-2 - et) ->
  exists (su : bool) (mu : positive) (eu : Z),
    SFadd prec emax (S754_finite st mt et) (S754_finite false (2 ^ 52) (-53))
    = S754_finite su mu eu
    /\ Z.shiftl (cond_Zopp su (Zpos mu)) eu = cond_Zopp st a.
Proof.
  intros Ha Hmt Het Hb.
  change (2 ^ 51) with 2251799813685248 in *.
  change (2 ^ 53) with 9007199254740992 in *.
  change (2 ^ 52) with 4503599627370496 in Hmt.
  assert (Het' : -53 <= et).
  { destruct (Z.le_gt_cases (-53) et) as [ | Hgt]; [assumption | exfalso].
    assert (2 ^ 52 <= 2 ^ (-2 - et)) by (apply Z.pow_le_mono_r; lia).
    change (2 ^ 52) with 4503599627370496 in *. nia. }
  unfold SFadd. rewrite Z.min_r by lia.
  rewrite (shl_align_value mt et (-53)) by lia.
  change (fst (shl_align (2 ^ 52) (-53) (-53))) with (2 ^ 52)%positive.
  set (T := Zpos mt * 2 ^ (et - -53)).
  assert (HT : (4 * a - 1) * 2 ^ 51 <= T <= (4 * a + 1) * 2 ^ 51).
  { unfold T. replace 51 with ((-2 - et) + (et - -53)) by lia.
    rewrite pow2_split by lia.
    pose proof (pow2_pos (et - -53) ltac:(lia)).
    pose proof (pow2_pos (-2 - et) ltac:(lia)). nia. }
  clearbody T. change (2 ^ 51) with 2251799813685248 in HT.
  assert (Hfloor : forall (su : bool) (mu : positive) (eu lo hi : Z),
             eu <= -2 ->
             lo * 2 ^ (-2 - eu) <= Zpos mu <= hi * 2 ^ (-2 - eu) ->
             (su = false -> 4 * a <= lo /\ hi < 4 * a + 4) ->
             (su = true -> 4 * a - 4 < lo /\ hi <= 4 * a) ->
             Z.shiftl (cond_Zopp su (Zpos mu)) eu = cond_Zopp su a).
  { intros su mu eu lo hi Heu Hmu Hpos Hneg.
    rewrite Z.shiftl_div_pow2 by lia.
    replace (- eu) with (2 + (-2 - eu)) by lia. rewrite pow2_split by lia.
    pose proof (pow2_pos (-2 - eu) ltac:(lia)) as Hp.
    change (2 ^ 2) with 4. set (J := 2 ^ (-2 - eu)) in *.
    symmetry. destruct su; cbn [cond_Zopp].
    - destruct (Hneg eq_refl).
      apply Z.div_unique with (r := - Zpos mu + a * (4 * J)); [left | ]; nia.
    - destruct (Hpos eq_refl).
      apply Z.div_unique with (r := Zpos mu - a * (4 * J)); [left | ]; nia. }
  destruct st; cbn [cond_Zopp].
  - (* a negative float: the sum is negative *)
    destruct (- T + Zpos (2 ^ 52)) as [ | S | S] eqn:ES;
      change (Zpos (2 ^ 52)) with 4503599627370496 in ES; try lia.
    cbn [binary_normalize].
    pose proof (digits2_pos_bounds S) as HdS.
    destruct (binary_round_bracket true S (-53) (4 * a - 3) (4 * a - 1) (-2))
      as (mu & eu & Hr & Hmu & Heu & Hbu); try lia.
    exists true, mu, eu. split; [exact Hr | ].
    apply (Hfloor true mu eu (4 * a - 3) (4 * a - 1)); try lia; try discriminate.
  - destruct (T + Zpos (2 ^ 52)) as [ | S | S] eqn:ES;
      change (Zpos (2 ^ 52)) with 4503599627370496 in ES; try lia.
    cbn [binary_normalize].
    pose proof (digits2_pos_bounds S) as HdS.
    destruct (binary_round_bracket false S (-53) (4 * a + 1) (4 * a + 3) (-2))
      as (mu & eu & Hr & Hmu & Heu & Hbu); try lia.
    exists false, mu, eu. split; [exact Hr | ].
    apply (Hfloor false mu eu (4 * a + 1) (4 * a + 3)); try lia; try discriminate.
Qed.

(** ** Rounding twice *)

Lemma round_component_scaled (p : N) (x : float) :
  round_component (10 ^ Z.of_N p) x = (n <- scaled p x ;; int_truediv n (10 ^ Z.of_N p)).
Proof.
  unfold round_component, scaled.
  destruct (float_mul_int x (10 ^ Z.of_N p)); reflexivity.
Qed.

Lemma pow10_exact_checked : forallb pow10_exact (map N.of_nat (seq 0 23)) = true.
Proof. vm_compute. reflexivity. Qed.

Lemma pow10_representable (p : N) :
  (p <= 22)%N ->
  exists (mF : positive) (eF : Z),
    binary_normalize prec emax (10 ^ Z.of_N p) 0 false = S754_finite false mF eF
    /\ 2 ^ 52 <= Zpos mF < 2 ^ 53 /\ -52 <= eF <= 21
    /\ Zpos mF * 2 ^ (eF + 52) = 10 ^ Z.of_N p * 2 ^ 52.
Proof.
  intros Hp. pose proof pow10_exact_checked as C. rewrite forallb_forall in C.
  assert (Hin : In p (map N.of_nat (seq 0 23))).
  { apply in_map_iff. exists (N.to_nat p). split; [lia | ]. apply in_seq. lia. }
  specialize (C p Hin). unfold pow10_exact in C.
  destruct (binary_normalize prec emax (10 ^ Z.of_N p) 0 false)
    as [ | | | [ | ] mF eF]; try discriminate.
  exists mF, eF. split; [reflexivity | ].
  repeat (apply andb_true_iff in C; destruct C as [C ?]).
  repeat match goal with
         | H : (_ <=? _) = true |- _ => apply Z.leb_le in H
         | H : (_ <? _) = true |- _ => apply Z.ltb_lt in H
         | H : (_ =? _) = true |- _ => apply Z.eqb_eq in H
         end.
  repeat split; assumption.
Qed.

Lemma Prim2SF_half : Prim2SF 0.5%float = S754_finite false (2 ^ 52) (-53).
Proof. reflexivity. Qed.

(** Scaling a rounded component gives back the integer it was made from. *)
Lemma int_truediv_scaled (p : N) (n : Z) :
  (p <= 22)%N -> Z.abs n < 2 ^ 51 ->
  exists y, int_truediv n (10 ^ Z.of_N p) = Ok y /\ scaled p y = Ok n.
Proof.
  intros Hp Hn.
  destruct (pow10_representable p Hp) as (mF & eF & HF & HmF & HeF & HF2).
  assert (HF74 : 0 < 10 ^ Z.of_N p < 2 ^ 74).
  { split; [apply Z.pow_pos_nonneg; lia | ].
    apply Z.le_lt_trans with (10 ^ 22); [apply Z.pow_le_mono_r; lia | reflexivity]. }
  pose proof (valid_binary_normal false mF eF HmF ltac:(lia)) as HvF.
  unfold int_truediv, scaled, float_mul_int, float_of_int.
  set (F := 10 ^ Z.of_N p) in *.
  destruct (Z.eqb_spec F 0) as [ | _]; [lia | ].
  rewrite HF. cbn [bind].
  assert (Hfloor : forall sf su mu eu,
             valid_binary sf = true ->
             SFadd prec emax (SFmul prec emax sf (S754_finite false mF eF))
               (S754_finite false (2 ^ 52) (-53)) = S754_finite su mu eu ->
             Z.shiftl (cond_Zopp su (Zpos mu)) eu = n ->
             math_floor (SF2Prim sf * SF2Prim (S754_finite false mF eF) + 0.5)%float = Ok n).
  { intros sf su mu eu Hv Hadd Hfl. unfold math_floor.
    rewrite add_spec, mul_spec, !Prim2SF_SF2Prim, Prim2SF_half by assumption.
    unfold SF64add, SF64mul. rewrite Hadd, Hfl. reflexivity. }
  destruct F as [ | b | b] eqn:EF; try lia.
  destruct n as [ | a | a]; cbn [sf_of_int].
  - eexists. split; [reflexivity | ].
    apply (Hfloor (S754_zero false) false (2 ^ 52)%positive (-53)); reflexivity.
  - destruct (SFdiv_int_normal false a b ltac:(lia) ltac:(lia))
      as (my & k & Hdiv & Hmy & Hk & Herr).
    rewrite Hdiv. eexists. split; [reflexivity | ].
    destruct (SFmul_near_int false my mF k eF (Zpos a) (Zpos b)
                ltac:(lia) ltac:(lia) Hmy Hk Herr HmF HeF HF2)
      as (mt & et & Hmul & Hmt & Het & Hbt).
    destruct (SFadd_half_floor false mt et (Zpos a) ltac:(lia) Hmt Het Hbt)
      as (su & mu & eu & Hadd & Hfl).
    apply (Hfloor _ su mu eu); [apply valid_binary_normal; lia | | exact Hfl].
    rewrite Hmul. exact Hadd.
  - destruct (SFdiv_int_normal true a b ltac:(lia) ltac:(lia))
      as (my & k & Hdiv & Hmy & Hk & Herr).
    rewrite Hdiv. eexists. split; [reflexivity | ].
    destruct (SFmul_near_int true my mF k eF (Zpos a) (Zpos b)
                ltac:(lia) ltac:(lia) Hmy Hk Herr HmF HeF HF2)
      as (mt & et & Hmul & Hmt & Het & Hbt).
    destruct (SFadd_half_floor true mt et (Zpos a) ltac:(lia) Hmt Het Hbt)
      as (su & mu & eu & Hadd & Hfl).
    apply (Hfloor _ su mu eu); [apply valid_binary_normal; lia | | exact Hfl].
    rewrite Hmul. exact Hadd.
Qed.

(** A component whose scaled integer is below [2^51] in magnitude rounds to
    a float that rounds to itself. *)
Lemma round_component_fixed (p : N) (x : float) (n : Z) :
  (p <= 22)%N -> scaled p x = Ok n -> Z.abs n < 2 ^ 51 ->
  exists y, round_component (10 ^ Z.of_N p) x = Ok y
            /\ round_component (10 ^ Z.of_N p) y = Ok y.
Proof.
  intros Hp Hx Hn. destruct (int_truediv_scaled p n Hp Hn) as (y & Hy & Hs).
  exists y. rewrite !round_component_scaled, Hx, Hs. cbn [bind]. auto.
Qed.

(** C8, as stated, fails in binary64 arithmetic.  At the default precision
    6 the vector [[9000000000.002]] rounds to [[9000000000.002003]], which
    rounds to [[9000000000.002005]]; at precision 23, where [10^23] is not a
    float, [[1.0]] rounds to [[0.9999999999999999]], which rounds to
    [[0.9999999999999998]]. *)
Lemma round_vector_twice_differs :
  round_vector [9000000000.002]%float 6 = Ok [9000000000.002003]%float
  /\ round_vector [9000000000.002003]%float 6 = Ok [9000000000.002005]%float
  /\ round_vector [1]%float 23 = Ok [0x1.fffffffffffffp-1]%float
  /\ round_vector [0x1.fffffffffffffp-1]%float 23 = Ok [0x1.ffffffffffffep-1]%float.
Proof. repeat split; vm_compute; reflexivity. Qed.

(** C8 (amended). At a fixed precision [p <= 22], [round_vector] is
    idempotent on every vector whose components scale to integers
    [floor(x * 10^p + 0.5)] below [2^51] in magnitude: it returns on such a
    vector, and rounding the result again at the same precision returns the
    same vector. *)
Theorem round_vector_idempotent (v : list float) (p : N) :
  (p <= 22)%N ->
  Forall (fun x => exists n, scaled p x = Ok n /\ Z.abs n < 2 ^ 51) v ->
  exists w, round_vector v p = Ok w /\ round_vector w p = Ok w.
Proof.
  intros Hp Hv. unfold round_vector.
  induction Hv as [ | x v (n & Hx & Hn) _ (w & Hw & Hww)].
  - exists []. split; reflexivity.
  - destruct (round_component_fixed p x n Hp Hx Hn) as (y & Hy & Hyy).
    exists (y :: w). cbn [list_comp]. rewrite Hy, Hyy, Hw, Hww. split; reflexivity.
Qed.

Lemma round_vector_idempotent_witness :
  Forall (fun x => exists n, scaled 6 x = Ok n /\ Z.abs n < 2 ^ 51)
    [0.1234567; -2.5; 0; 1234.5678915]%float
  /\ exists w,
      round_vector [0.1234567; -2.5; 0; 1234.5678915]%float 6 = Ok w
      /\ round_vector w 6 = Ok w.
Proof.
  assert (H : Forall (fun x => exists n, scaled 6 x = Ok n /\ Z.abs n < 2 ^ 51)
                [0.1234567; -2.5; 0; 1234.5678915]%float).
  { repeat constructor; eexists; (split; [vm_compute; reflexivity | reflexivity]). }
  split; [exact H | ].
  apply (round_vector_idempotent _ 6%N); [discriminate | exact H].
Defined.

(** ** The formula of round_vector *)

Lemma float_fraction_nonneg (t : float) (num k : Z) :
  float_fraction t = Some (num, k) -> 0 <= k.
Proof.
  unfold float_fraction. destruct (Prim2SF t) as [s | s | | s m e]; try discriminate.
  - intros H. inversion H. lia.
  - destruct (Z.ltb_spec e 0) as [Hlt | Hge]; intros H; inversion H; lia.
Qed.

(** [math.floor] is the floor of the value. *)
Lemma math_floor_fraction (t : float) (num k : Z) :
  float_fraction t = Some (num, k) -> math_floor t = Ok (num / 2 ^ k).
Proof.
  unfold float_fraction, math_floor.
  destruct (Prim2SF t) as [s | s | | s m e]; try discriminate.
  - intros H. inversion H. reflexivity.
  - destruct (Z.ltb_spec e 0) as [Hlt | Hge]; intros H; inversion H; subst; f_equal.
    + apply Z.shiftl_div_pow2. lia.
    + rewrite Z.shiftl_mul_pow2 by lia. change (2 ^ 0) with 1. rewrite Z.div_1_r.
      reflexivity.
Qed.

Lemma math_floor_defined (t : float) (n : Z) :
  math_floor t = Ok n -> exists num k, float_fraction t = Some (num, k).
Proof.
  unfold float_fraction, math_floor.
  destruct (Prim2SF t) as [s | s | | s m e]; try discriminate; intros _.
  - eexists _, _. reflexivity.
  - destruct (e <? 0); eexists _, _; reflexivity.
Qed.

Lemma math_floor_is_floor (t : float) (n : Z) :
  math_floor t = Ok n <-> is_floor t n.
Proof.
  split.
  - intros H. destruct (math_floor_defined t n H) as (num & k & Hf).
    exists num, k. split; [exact Hf | ].
    pose proof (float_fraction_nonneg t num k Hf) as Hk.
    rewrite (math_floor_fraction t num k Hf) in H. inversion H.
    pose proof (pow2_pos k Hk) as Hp.
    pose proof (Z.mul_div_le num (2 ^ k) Hp).
    pose proof (Z.mul_succ_div_gt num (2 ^ k) Hp). lia.
  - intros (num & k & Hf & Hlo & Hhi).
    pose proof (float_fraction_nonneg t num k Hf) as Hk.
    rewrite (math_floor_fraction t num k Hf). f_equal.
    pose proof (pow2_pos k Hk) as Hp.
    symmetry. apply (Z.div_unique num (2 ^ k) n (num - n * 2 ^ k)); lia.
Qed.

Lemma round_component_rounds_to (p : N) (x y : float) :
  round_component (10 ^ Z.of_N p) x = Ok y <-> rounds_to p x y.
Proof.
  unfold round_component, rounds_to, float_mul_int. split.
  - intros H. apply bind_ok in H. destruct H as (xf & Hxf & H).
    apply bind_ok in Hxf. destruct Hxf as (f & Hf & Hxf). inversion Hxf. subst xf.
    apply bind_ok in H. destruct H as (n & Hn & H).
    exists f, n. split; [exact Hf | split; [ | exact H]].
    apply math_floor_is_floor. exact Hn.
  - intros (f & n & Hf & Hn & H). rewrite Hf. cbn [bind].
    apply math_floor_is_floor in Hn. rewrite Hn. exact H.
Qed.

(** The float of [10^p] is [10^p], up to [10^22]. *)
Lemma float_of_pow10 (p : N) :
  (p <= 22)%N ->
  exists f, float_of_int (10 ^ Z.of_N p) = Ok f /\ has_value f (10 ^ Z.of_N p) 0.
Proof.
  intros Hp. destruct (pow10_representable p Hp) as (mF & eF & HF & HmF & HeF & HF2).
  exists (SF2Prim (S754_finite false mF eF)). unfold float_of_int. rewrite HF.
  split; [reflexivity | ].
  unfold has_value, float_fraction.
  rewrite Prim2SF_SF2Prim by (apply valid_binary_normal; lia). cbn [cond_Zopp].
  destruct (Z.ltb_spec eF 0) as [Hlt | Hge].
  - exists (Zpos mF), (- eF). split; [reflexivity | ].
    change (2 ^ 0) with 1. rewrite Z.mul_1_r.
    pose proof (pow2_pos (eF + 52) ltac:(lia)) as Hpos.
    apply (Z.mul_cancel_r _ _ (2 ^ (eF + 52))); [lia | ].
    rewrite HF2, <- Z.mul_assoc, <- pow2_split by lia.
    replace (- eF + (eF + 52)) with 52 by lia. reflexivity.
  - exists (Zpos mF * 2 ^ eF), 0. split; [reflexivity | ].
    change (2 ^ 0) with 1. rewrite !Z.mul_1_r.
    rewrite pow2_split in HF2 by lia.
    apply (Z.mul_cancel_r _ _ (2 ^ 52)); [lia | ].
    rewrite <- HF2. ring.
Qed.

(** The quotient of an [int] below [2^51] in magnitude by a power of ten up
    to [10^22] is rounded to the nearest: it is within half a unit in the
    last place of the quotient. *)
Lemma int_truediv_rounds (p : N) (n : Z) :
  (p <= 22)%N -> Z.abs n < 2 ^ 51 ->
  exists y, int_truediv n (10 ^ Z.of_N p) = Ok y /\ rounds_quotient n (10 ^ Z.of_N p) y.
Proof.
  intros Hp Hn.
  assert (HF74 : 0 < 10 ^ Z.of_N p < 2 ^ 74).
  { split; [apply Z.pow_pos_nonneg; lia | ].
    apply Z.le_lt_trans with (10 ^ 22); [apply Z.pow_le_mono_r; lia | reflexivity]. }
  unfold int_truediv, rounds_quotient.
  set (F := 10 ^ Z.of_N p) in *.
  destruct (Z.eqb_spec F 0) as [ | _]; [lia | ].
  destruct F as [ | b | b] eqn:EF; try lia.
  destruct n as [ | a | a]; cbn [sf_of_int].
  - eexists. split; [reflexivity | ]. reflexivity.
  - destruct (SFdiv_int_normal false a b ltac:(lia) ltac:(lia))
      as (my & k & Hdiv & Hmy & Hk & Herr).
    rewrite Hdiv. eexists. split; [reflexivity | ].
    rewrite Prim2SF_SF2Prim by (apply valid_binary_normal; lia).
    cbn [cond_Zopp]. rewrite Z.opp_involutive.
    split; [exact Hmy | split; [lia | exact Herr]].
  - destruct (SFdiv_int_normal true a b ltac:(lia) ltac:(lia))
      as (my & k & Hdiv & Hmy & Hk & Herr).
    rewrite Hdiv. eexists. split; [reflexivity | ].
    rewrite Prim2SF_SF2Prim by (apply valid_binary_normal; lia).
    cbn [cond_Zopp]. rewrite Z.opp_involutive.
    split; [exact Hmy | split; [lia | ]].
    replace (- Zpos my * Zpos b - Zneg a * 2 ^ k)
      with (- (Zpos my * Zpos b - Zpos a * 2 ^ k)) by lia.
    rewrite Z.abs_opp. exact Herr.
Qed.

Lemma tie_range_In (i : Z) : -1000 <= i < 1000 -> In i tie_range.
Proof.
  intros H. unfold tie_range. apply in_map_iff.
  exists (Z.to_nat (i + 1000)). split; [lia | ]. apply in_seq. lia.
Qed.

Lemma decimal_ties_checked :
  forallb (fun p => forallb (decimal_tie_goes_up p) tie_range) tie_precisions = true.
Proof. vm_compute. reflexivity. Qed.

Lemma decimal_ties_go_up (p : N) (i : Z) :
  (p <= 3)%N -> -1000 <= i < 1000 ->
  let j := 2 * i + 1 in
  let k := (j * 5 ^ Z.of_N p - 1) / 2 in
  has_value (decimal_tie p j) j (Z.of_N p + 1)
  /\ scaled p (decimal_tie p j) = Ok (k + 1)
  /\ exact_half_up p (decimal_tie p j) = Some (k + 1).
Proof.
  intros Hp Hi j k.
  pose proof decimal_ties_checked as C. rewrite forallb_forall in C.
  assert (Hin : In p tie_precisions).
  { unfold tie_precisions.
    assert (Hc : p = 0%N \/ p = 1%N \/ p = 2%N \/ p = 3%N) by lia.
    destruct Hc as [-> | [-> | [-> | ->]]]; simpl; auto. }
  specialize (C p Hin). rewrite forallb_forall in C.
  specialize (C i (tie_range_In i Hi)). unfold decimal_tie_goes_up in C.
  fold j in C. fold k in C.
  destruct (float_fraction (decimal_tie p j)) as [[num k'] | ] eqn:Ef; [ | discriminate].
  destruct (scaled p (decimal_tie p j)) as [n | ]; [ | discriminate].
  destruct (exact_half_up p (decimal_tie p j)) as [n' | ]; [ | discriminate].
  apply andb_true_iff in C. destruct C as [C C3].
  apply andb_true_iff in C. destruct C as [C1 C2].
  apply Z.eqb_eq in C1, C2, C3. subst n n'.
  split; [ | split; reflexivity].
  exists num, k'. split; [exact Ef | exact C1].
Qed.

(** C6, as stated, fails: the formula is evaluated in binary64 arithmetic,
    and the result is not always the round-half-up of the number the
    component stands for.  [0.49999999999999994] is below one half, and at
    precision 0 exact round-half-up gives 0, but the sum with [0.5] is
    rounded to [1.0] and [round_vector] gives 1.0; the float [0.15] is below
    15 hundredths, and at precision 1 exact round-half-up gives 1 tenth,
    but the product by 10 is rounded to [1.5] and [round_vector] gives
    [0.2]. *)
Lemma round_vector_not_half_up :
  exact_half_up 0 0.49999999999999994%float = Some 0
  /\ round_vector [0.49999999999999994]%float 0 = Ok [1]%float
  /\ exact_half_up 1 0.15%float = Some 1
  /\ round_vector [0.15]%float 1 = Ok [0.2]%float
  /\ int_truediv 1 10 = Ok 0.1%float.
Proof. repeat split; vm_compute; reflexivity. Qed.

(** C6 (amended). [round_vector v p] evaluates
    [floor(x * 10^p + 0.5) / 10^p] in binary64 arithmetic, independently on
    every component [x] of [v]: it returns [w] exactly when every component
    of [w] is obtained from the component of [v] at the same place as the
    float of [n / 10^p], where [n] is the floor, taken exactly, of the float
    [x * f + 0.5], product and sum being rounded, and [f] is the float of
    [10^p].  Up to precision 22, [f] is [10^p] itself, and for [n] below
    [2^51] in magnitude the quotient is rounded to the nearest float (within
    half a unit in its last place).  On the ties that are floats the rule
    is round-half-up and not round-half-to-even: up to precision 3, every
    [(k + 1/2) / 10^p] of the form [j / 2^(p+1)] with [j] odd and
    [|j| < 2000] is scaled to [k + 1], for even [k] as well, as exact
    round-half-up does. *)
Theorem round_vector_float_formula :
  (forall v p w, round_vector v p = Ok w <-> Forall2 (rounds_to p) v w)
  /\ (forall p,
         (p <= 22)%N ->
         exists f, float_of_int (10 ^ Z.of_N p) = Ok f /\ has_value f (10 ^ Z.of_N p) 0)
  /\ (forall p n,
         (p <= 22)%N -> Z.abs n < 2 ^ 51 ->
         exists y,
           int_truediv n (10 ^ Z.of_N p) = Ok y /\ rounds_quotient n (10 ^ Z.of_N p) y)
  /\ (forall p i,
         (p <= 3)%N -> -1000 <= i < 1000 ->
         let j := 2 * i + 1 in
         let k := (j * 5 ^ Z.of_N p - 1) / 2 in
         has_value (decimal_tie p j) j (Z.of_N p + 1)
         /\ exact_half_up p (decimal_tie p j) = Some (k + 1)
         /\ round_vector [decimal_tie p j] p
            = (y <- int_truediv (k + 1) (10 ^ Z.of_N p) ;; Ok [y])).
Proof.
  split; [ | split; [ | split]].
  - intros v p w. unfold round_vector. rewrite list_comp_ok.
    split; intros H; (eapply Forall2_impl; [ | exact H]); intros x y;
      apply round_component_rounds_to.
  - apply float_of_pow10.
  - apply int_truediv_rounds.
  - intros p i Hp Hi j k.
    destruct (decimal_ties_go_up p i Hp Hi) as (Hv & Hs & He). fold j k in Hv, Hs, He.
    split; [exact Hv | split; [exact He | ]].
    unfold round_vector. cbn [list_comp].
    rewrite round_component_scaled, Hs. cbn [bind].
    destruct (int_truediv (k + 1) (10 ^ Z.of_N p)); reflexivity.
Qed.

(** The ties [0.5], [2.5] and [-1.5] at precision 0, and [0.25] at
    precision 1, which goes to [0.3]. *)
Lemma round_vector_float_formula_witness :
  round_vector [0.5; 2.5; -1.5]%float 0 = Ok [1; 3; -1]%float
  /\ round_vector [decimal_tie 1 1] 1 = Ok [0.3]%float
  /\ exists y, int_truediv 123457 (10 ^ 6) = Ok y /\ rounds_quotient 123457 (10 ^ 6) y.
Proof.
  destruct round_vector_float_formula as (Hv & _ & Hq & Ht).
  split; [ | split].
  - apply Hv. repeat constructor; apply round_component_rounds_to; vm_compute; reflexivity.
  - destruct (Ht 1%N 0 ltac:(lia) ltac:(lia)) as (_ & _ & Hr).
    etransitivity; [exact Hr | ]. vm_compute. reflexivity.
  - exact (Hq 6%N 123457 ltac:(lia) ltac:(reflexivity)).
Defined.

(** * Further properties *)

(** ** Extraction by shape *)

Lemma discovered_vector_array_like (v : pyval) :
  is_array_like v = true -> discovered_vector v = Some v.
Proof. destruct v; simpl; intros H; try discriminate; reflexivity. Qed.

(** A comprehension of singletons, flattened. *)
Lemma list_comp_singletons {A C : Type} (f : A -> result C) (l : list A) :
  (pss <- list_comp (fun x => y <- f x ;; Ok [y]) l ;; Ok (concat pss)) = list_comp f l.
Proof.
  induction l as [ | x l IH]; [reflexivity | ]. cbn [list_comp].
  destruct (f x) as [y | e]; cbn [bind]; [ | reflexivity].
  rewrite <- IH.
  destruct (list_comp (fun x0 => y0 <- f x0 ;; Ok [y0]) l) as [pss | e]; reflexivity.
Qed.

(** X1. A mapping whose values are all lists, tuples or arrays gives one
    pair per entry, in the order of the entries: [str] of the key, taken
    key after key, and the value.  It returns exactly when every key has a
    text, and fails with the error of [str] on the first key that has
    none. *)
Theorem extract_items_flat_mapping (B : builtins) (d : list (pyval * pyval)) :
  Forall (fun kv => is_array_like (snd kv) = true) d ->
  extract_items B (PDict d)
  = list_comp (fun kv => s <- py_str B (fst kv) ;;
                         Ok {| pair_id := s; pair_vector := snd kv |}) d
  /\ (forall items,
         extract_items B (PDict d) = Ok items <->
         Forall2 (fun kv p => py_str B (fst kv) = Ok (pair_id p) /\ pair_vector p = snd kv)
           d items)
  /\ (forall e,
         extract_items B (PDict d) = Raise e <->
         exists pre kv post,
           d = pre ++ kv :: post
           /\ Forall (fun kv' => exists s, py_str B (fst kv') = Ok s) pre
           /\ py_str B (fst kv) = Raise e).
Proof.
  intros H.
  assert (E : extract_items B (PDict d)
              = list_comp (fun kv => s <- py_str B (fst kv) ;;
                                     Ok {| pair_id := s; pair_vector := snd kv |}) d).
  { unfold extract_items. rewrite extract_mapping_emitted. cbn [app].
    set (f := fun kv : pyval * pyval =>
                s <- py_str B (fst kv) ;; Ok {| pair_id := s; pair_vector := snd kv |}).
    rewrite (list_comp_ext (emitted_for_entry B) (fun kv => y <- f kv ;; Ok [y])).
    - apply (list_comp_singletons f).
    - intros [k v] Hin. rewrite Forall_forall in H. specialize (H (k, v) Hin).
      unfold emitted_for_entry, f. cbn [fst snd] in *.
      rewrite (discovered_vector_array_like v H).
      destruct (py_str B k); reflexivity. }
  split; [exact E | split].
  - intros items. rewrite E, list_comp_ok. split; intros HF;
      (eapply Forall2_impl; [ | exact HF]); intros [k v] p; cbn [fst snd].
    + intros Hp. apply bind_ok in Hp. destruct Hp as (s & Hs & Hp). inversion Hp. auto.
    + intros (Hs & Hv). rewrite Hs. cbn [bind]. destruct p. simpl in *. subst. reflexivity.
  - intros e. rewrite E, list_comp_raise. split.
    + intros (pre & kv & post & -> & Hpre & Hkv). exists pre, kv, post.
      split; [reflexivity | split].
      * eapply Forall_impl; [ | exact Hpre]. intros kv' (p & Hp).
        apply bind_ok in Hp. destruct Hp as (s & Hs & _). exists s. exact Hs.
      * apply bind_raise in Hkv. destruct Hkv as [Hkv | (s & _ & Hkv)];
          [exact Hkv | discriminate].
    + intros (pre & kv & post & -> & Hpre & Hkv). exists pre, kv, post.
      split; [reflexivity | split].
      * eapply Forall_impl; [ | exact Hpre]. intros kv' (s & Hs).
        eexists. rewrite Hs. reflexivity.
      * rewrite Hkv. reflexivity.
Qed.

Lemma extract_items_flat_mapping_witness :
  Forall (fun kv => is_array_like (snd kv) = true)
    [(PStr "bob", floats [1; 2]%float); (PInt 7, PTuple [PInt 3]); (PNone, PNdarray [])]
  /\ extract_items sample_builtins
       (PDict [(PStr "bob", floats [1; 2]%float); (PInt 7, PTuple [PInt 3]);
               (PNone, PNdarray [])])
     = Ok [{| pair_id := "bob"; pair_vector := floats [1; 2]%float |};
           {| pair_id := "7"; pair_vector := PTuple [PInt 3] |};
           {| pair_id := "None"; pair_vector := PNdarray [] |}].
Proof.
  assert (H : Forall (fun kv => is_array_like (snd kv) = true)
                [(PStr "bob", floats [1; 2]%float); (PInt 7, PTuple [PInt 3]);
                 (PNone, PNdarray [])])
    by (repeat constructor).
  split; [exact H | ].
  rewrite (proj1 (extract_items_flat_mapping sample_builtins _ H)). reflexivity.
Defined.

(** X2. A sequence of two-element lists or tuples gives one pair per
    element, in order, whatever the second component is: [str] of the
    first component, taken element after element, and the second
    component.  It returns exactly when every first component has a text,
    and fails with the error of [str] on the first one that has none. *)
Theorem extract_items_pair_sequence (B : builtins) (l : list pyval)
    (ps : list (pyval * pyval)) :
  Forall2 (fun el lv => two_elements el = Some lv) l ps ->
  extract_items B (PList l)
  = list_comp (fun lv => s <- py_str B (fst lv) ;;
                         Ok {| pair_id := s; pair_vector := snd lv |}) ps
  /\ (forall items,
         extract_items B (PList l) = Ok items <->
         Forall2 (fun lv p => py_str B (fst lv) = Ok (pair_id p) /\ pair_vector p = snd lv)
           ps items)
  /\ (forall e,
         extract_items B (PList l) = Raise e <->
         exists pre lv post,
           ps = pre ++ lv :: post
           /\ Forall (fun lv' => exists s, py_str B (fst lv') = Ok s) pre
           /\ py_str B (fst lv) = Raise e).
Proof.
  intros H.
  assert (E : forall acc,
             extract_sequence B acc l
             = (rs <- list_comp (fun lv => s <- py_str B (fst lv) ;;
                                           Ok {| pair_id := s; pair_vector := snd lv |}) ps ;;
                Ok (acc ++ rs))).
  { induction H as [ | el [label vec] l ps Hel _ IH]; intros acc;
      cbn [extract_sequence list_comp].
    - cbn [bind]. rewrite app_nil_r. reflexivity.
    - rewrite (extract_element_two B acc el label vec Hel). unfold append_pair. cbn [fst snd].
      destruct (py_str B label) as [s | e]; cbn [bind]; [ | reflexivity].
      rewrite IH.
      destruct (list_comp (fun lv => s0 <- py_str B (fst lv) ;;
                                     Ok {| pair_id := s0; pair_vector := snd lv |}) ps)
        as [rs | e]; cbn [bind]; [ | reflexivity].
      rewrite <- app_assoc. reflexivity. }
  assert (E0 : extract_items B (PList l)
               = list_comp (fun lv => s <- py_str B (fst lv) ;;
                                      Ok {| pair_id := s; pair_vector := snd lv |}) ps).
  { unfold extract_items. rewrite E.
    destruct (list_comp (fun lv => s <- py_str B (fst lv) ;;
                                   Ok {| pair_id := s; pair_vector := snd lv |}) ps);
      reflexivity. }
  split; [exact E0 | split].
  - intros items. rewrite E0, list_comp_ok. split; intros HF;
      (eapply Forall2_impl; [ | exact HF]); intros [k v] p; cbn [fst snd].
    + intros Hp. apply bind_ok in Hp. destruct Hp as (s & Hs & Hp). inversion Hp. auto.
    + intros (Hs & Hv). rewrite Hs. cbn [bind]. destruct p. simpl in *. subst. reflexivity.
  - intros e. rewrite E0, list_comp_raise. split.
    + intros (pre & lv & post & -> & Hpre & Hlv). exists pre, lv, post.
      split; [reflexivity | split].
      * eapply Forall_impl; [ | exact Hpre]. intros lv' (p & Hp).
        apply bind_ok in Hp. destruct Hp as (s & Hs & _). exists s. exact Hs.
      * apply bind_raise in Hlv. destruct Hlv as [Hlv | (s & _ & Hlv)];
          [exact Hlv | discriminate].
    + intros (pre & lv & post & -> & Hpre & Hlv). exists pre, lv, post.
      split; [reflexivity | split].
      * eapply Forall_impl; [ | exact Hpre]. intros lv' (s & Hs).
        eexists. rewrite Hs. reflexivity.
      * rewrite Hlv. reflexivity.
Qed.

Lemma extract_items_pair_sequence_witness :
  Forall2 (fun el lv => two_elements el = Some lv)
    [PTuple [PStr "alice"; floats [1]%float]; PList [PInt 2; PNone]]
    [(PStr "alice", floats [1]%float); (PInt 2, PNone)]
  /\ extract_items sample_builtins
       (PList [PTuple [PStr "alice"; floats [1]%float]; PList [PInt 2; PNone]])
     = Ok [{| pair_id := "alice"; pair_vector := floats [1]%float |};
           {| pair_id := "2"; pair_vector := PNone |}].
Proof.
  assert (H : Forall2 (fun el lv => two_elements el = Some lv)
                [PTuple [PStr "alice"; floats [1]%float]; PList [PInt 2; PNone]]
                [(PStr "alice", floats [1]%float); (PInt 2, PNone)])
    by (repeat constructor).
  split; [exact H | ].
  rewrite (proj1 (extract_items_pair_sequence sample_builtins _ _ H)). reflexivity.
Defined.

(** X3. Elements of a sequence that are neither mappings nor two-element lists
    or tuples are skipped: taking them out of the input changes nothing, and
    the other elements give at most one pair each. *)
Theorem extract_items_skips (B : builtins) (l : list pyval) :
  extract_items B (PList (filter (fun el => negb (other_shape el)) l))
  = extract_items B (PList l)
  /\ forall items,
      extract_items B (PList l) = Ok items ->
      (length items <= length (filter (fun el => negb (other_shape el)) l))%nat.
Proof.
  assert (E : forall acc,
             extract_sequence B acc (filter (fun el => negb (other_shape el)) l)
             = extract_sequence B acc l).
  { induction l as [ | el l IH]; intros acc; [reflexivity | ].
    cbn [filter]. destruct (other_shape el) eqn:Es; cbn [negb extract_sequence].
    - rewrite (extract_element_other_shape B acc el Es). cbn [bind]. apply IH.
    - destruct (extract_element B acc el); cbn [bind]; [apply IH | reflexivity]. }
  split; [apply E | ].
  intros items H. simpl in H. rewrite <- E in H.
  apply extract_sequence_appends in H. destruct H as (added & -> & Hlen). exact Hlen.
Qed.

(** ** Mapping-like elements of a sequence *)

(** X4. A synthetic identifier names the place of its pair in the result: a
    mapping-like element without a true ["id"], ["name"] or ["label"], met
    when [n] pairs have been emitted, gives the pair at index [n] of the
    list that [extract_items] returns, under the identifier ["item_<n>"]. *)
Theorem synthetic_id_is_position (B : builtins) (pre post : list pyval)
    (d : list (pyval * pyval)) (vec : pyval) (items out : list ExtractedPair) :
  extract_sequence B [] pre = Ok items ->
  is_false (dict_get d "id") ->
  is_false (dict_get d "name") ->
  is_false (dict_get d "label") ->
  resolves_vector d vec ->
  vec <> PNone ->
  extract_items B (PList (pre ++ PDict d :: post)) = Ok out ->
  nth_error out (length items)
  = Some {| pair_id := ("item_" ++ decimal (Z.of_nat (length items)))%string;
            pair_vector := vec |}.
Proof.
  intros Hpre H1 H2 H3 Hvec Hne H.
  unfold extract_items in H. rewrite extract_sequence_app, Hpre in H.
  cbn [bind extract_sequence] in H.
  rewrite (extract_element_resolved B items d _ vec
             (id_synthetic d (length items) H1 H2 H3) Hvec) in H.
  assert (E : extract_sequence B
                (items ++ [{| pair_id := ("item_" ++ decimal (Z.of_nat (length items)))%string;
                              pair_vector := vec |}]) post = Ok out).
  { destruct vec; try exact H. congruence. }
  apply extract_sequence_appends in E. destruct E as (added & -> & _).
  rewrite <- app_assoc. rewrite nth_error_app2 by lia.
  rewrite Nat.sub_diag. reflexivity.
Qed.

Lemma synthetic_id_is_position_witness :
  nth_error
    [{| pair_id := "a"; pair_vector := floats [1]%float |};
     {| pair_id := "item_1"; pair_vector := floats [2]%float |};
     {| pair_id := "c"; pair_vector := PNone |}]
    1
  = Some {| pair_id := "item_1"; pair_vector := floats [2]%float |}.
Proof.
  exact (synthetic_id_is_position sample_builtins
           [PInt 5; PTuple [PStr "a"; floats [1]%float]; PStr "x"]
           [PList [PStr "c"; PNone]]
           [(PStr "name", PStr EmptyString); (PStr "vector", floats [2]%float)]
           (floats [2]%float)
           [{| pair_id := "a"; pair_vector := floats [1]%float |}]
           [{| pair_id := "a"; pair_vector := floats [1]%float |};
            {| pair_id := "item_1"; pair_vector := floats [2]%float |};
            {| pair_id := "c"; pair_vector := PNone |}]
           eq_refl eq_refl eq_refl eq_refl
           (vector_by_vector
              [(PStr "name", PStr EmptyString); (PStr "vector", floats [2]%float)] eq_refl)
           ltac:(discriminate) eq_refl).
Defined.

(** ** Arrays under the keys of a mapping-like element *)

Lemma extract_element_array_embedding (B : builtins) (items : list ExtractedPair)
    (d : list (pyval * pyval)) (x y : float) (a : list float) :
  dict_get d "embedding" = PNdarray (x :: y :: a) ->
  exists msg, extract_element B items (PDict d) = Raise (ValueError msg).
Proof.
  intros He.
  destruct (extract_element B items (PDict d)) as [items' | e] eqn:E.
  - exfalso. unfold extract_element in E.
    apply bind_ok in E. destruct E as (vid & _ & E).
    apply bind_ok in E. destruct E as (vec & Hvec & _).
    rewrite He in Hvec. discriminate.
  - destruct (extract_element_raises_value_error B items _ e E) as (msg & ->).
    exists msg. reflexivity.
Qed.

(** X5. In a sequence, a mapping-like element whose ["embedding"] is an array
    of two or more elements makes [extract_items], and with it [main], fail
    with a [ValueError], wherever the element stands and whatever its other
    keys hold: [el.get('embedding') or el.get('vector')] asks the array for
    its truth value. *)
Theorem extract_items_array_embedding (B : builtins) (l : list pyval)
    (d : list (pyval * pyval)) (x y : float) (a : list float) (args : options) :
  In (PDict d) l ->
  dict_get d "embedding" = PNdarray (x :: y :: a) ->
  exists msg,
    extract_items B (PList l) = Raise (ValueError msg)
    /\ main B (PList l) args = Raise (ValueError msg).
Proof.
  intros Hin He.
  assert (H : forall acc, exists msg, extract_sequence B acc l = Raise (ValueError msg)).
  { induction l as [ | el l IH]; [destruct Hin | ]. intros acc.
    cbn [extract_sequence].
    destruct (extract_element B acc el) as [acc' | e] eqn:E; cbn [bind].
    - destruct Hin as [-> | Hin]; [ | exact (IH Hin acc')].
      destruct (extract_element_array_embedding B acc d x y a He) as (msg & Hmsg).
      congruence.
    - destruct (extract_element_raises_value_error B acc el e E) as (msg & ->).
      exists msg. reflexivity. }
  destruct (H []) as (msg & Hmsg). exists msg.
  split; [exact Hmsg | ]. rewrite main_eq. unfold extract_items. rewrite Hmsg. reflexivity.
Qed.

Lemma extract_items_array_embedding_witness :
  In (PDict [(PStr "name", PStr "bob"); (PStr "embedding", PNdarray [1; 2]%float)])
    [PTuple [PStr "alice"; floats [3]%float];
     PDict [(PStr "name", PStr "bob"); (PStr "embedding", PNdarray [1; 2]%float)]]
  /\ dict_get [(PStr "name", PStr "bob"); (PStr "embedding", PNdarray [1; 2]%float)]
       "embedding"
     = PNdarray [1; 2]%float
  /\ exists msg,
      extract_items sample_builtins
        (PList [PTuple [PStr "alice"; floats [3]%float];
                PDict [(PStr "name", PStr "bob"); (PStr "embedding", PNdarray [1; 2]%float)]])
      = Raise (ValueError msg)
      /\ main sample_builtins
           (PList [PTuple [PStr "alice"; floats [3]%float];
                   PDict [(PStr "name", PStr "bob");
                          (PStr "embedding", PNdarray [1; 2]%float)]])
           (sorted_capped 1)
         = Raise (ValueError msg).
Proof.
  assert (Hin : In (PDict [(PStr "name", PStr "bob");
                           (PStr "embedding", PNdarray [1; 2]%float)])
                  [PTuple [PStr "alice"; floats [3]%float];
                   PDict [(PStr "name", PStr "bob");
                          (PStr "embedding", PNdarray [1; 2]%float)]])
    by (right; left; reflexivity).
  split; [exact Hin | split; [reflexivity | ]].
  exact (extract_items_array_embedding sample_builtins _ _ 1%float 2%float []
           (sorted_capped 1) Hin eq_refl).
Defined.

Lemma extract_mapping_raises (B : builtins) (d : list (pyval * pyval))
    (acc : list ExtractedPair) (e : exn) :
  extract_mapping B acc d = Raise e -> e = int_too_long (int_max_str_digits B).
Proof.
  rewrite extract_mapping_emitted. intros H.
  apply bind_raise in H. destruct H as [H | (pss & _ & H)]; [ | discriminate].
  apply list_comp_raise in H. destruct H as (pre & [k v] & post & _ & _ & H).
  unfold emitted_for_entry in H. destruct (discovered_vector (snd (k, v))); [ | discriminate].
  apply bind_raise in H. destruct H as [H | (s & _ & H)]; [ | discriminate].
  exact (py_str_raises B _ e H).
Qed.

Lemma extract_sequence_raises (B : builtins) (l : list pyval)
    (acc : list ExtractedPair) (e : exn) :
  extract_sequence B acc l = Raise e ->
  e = int_too_long (int_max_str_digits B)
  \/ e = empty_array_truth \/ e = ambiguous_array_truth.
Proof.
  revert acc. induction l as [ | el l IH]; intros acc H; cbn [extract_sequence] in H;
    [discriminate | ].
  apply bind_raise in H. destruct H as [H | (acc' & _ & H)].
  - exact (extract_element_raises B acc el e H).
  - exact (IH acc' H).
Qed.

(** X6. [extract_items] fails in three ways only, each a [ValueError]: on a
    top level that is neither a mapping nor a sequence, with the
    unsupported-structure error; on an identifier whose text [str] refuses,
    an [int] of more digits than the interpreter converts, in it; and, for
    a sequence only, on an array of no element or of two or more that is
    asked for its truth value under a key of a mapping-like element. *)
Theorem extract_items_raises_value_error (B : builtins) (data : pyval) (e : exn) :
  extract_items B data = Raise e ->
  ((e = unsupported_structure
    /\ (forall d, data <> PDict d) /\ (forall l, data <> PList l))
   \/ (e = int_too_long (int_max_str_digits B)
       /\ ((exists d, data = PDict d) \/ (exists l, data = PList l)))
   \/ ((e = empty_array_truth \/ e = ambiguous_array_truth)
       /\ exists l, data = PList l))
  /\ exists msg, e = ValueError msg.
Proof.
  intros H.
  assert (C : (e = unsupported_structure
               /\ (forall d, data <> PDict d) /\ (forall l, data <> PList l))
              \/ (e = int_too_long (int_max_str_digits B)
                  /\ ((exists d, data = PDict d) \/ (exists l, data = PList l)))
              \/ ((e = empty_array_truth \/ e = ambiguous_array_truth)
                  /\ exists l, data = PList l)).
  { destruct data as [ | | | | | l | | d | ]; cbn [extract_items] in H;
      try (inversion H; left; split; [reflexivity | split; discriminate]).
    - right. destruct (extract_sequence_raises B l [] e H) as [-> | He].
      + left. split; [reflexivity | right; exists l; reflexivity].
      + right. split; [exact He | exists l; reflexivity].
    - right. left. split; [exact (extract_mapping_raises B d [] e H) | ].
      left. exists d. reflexivity. }
  split; [exact C | ].
  destruct C as [(-> & _) | [(-> & _) | ([-> | ->] & _)]]; eexists; reflexivity.
Qed.

(** An [int] of 4301 digits has no text under the default limit, as the key
    of a mapping or as the label of a pair. *)
Lemma extract_items_int_too_long :
  extract_items sample_builtins (PDict [(PInt (10 ^ 4300), floats [1]%float)])
  = Raise (int_too_long 4300)
  /\ extract_items sample_builtins (PList [PTuple [PInt (10 ^ 4300); floats [1]%float]])
     = Raise (int_too_long 4300).
Proof. split; vm_compute; reflexivity. Qed.

(** A scalar at the top level, and an empty array under ["id"]. *)
Lemma extract_items_raises_value_error_witness :
  (exists msg, unsupported_structure = ValueError msg)
  /\ (empty_array_truth = empty_array_truth \/ empty_array_truth = ambiguous_array_truth).
Proof.
  assert (H1 : extract_items sample_builtins (PInt 0) = Raise unsupported_structure)
    by reflexivity.
  assert (H2 : extract_items sample_builtins (PList [PDict [(PStr "id", PNdarray [])]])
               = Raise empty_array_truth) by reflexivity.
  split.
  - exact (proj2 (extract_items_raises_value_error sample_builtins _ _ H1)).
  - destruct (extract_items_raises_value_error sample_builtins _ _ H2)
      as ([(E & _) | [(E & _) | (E & _)]] & _); try discriminate. exact E.
Defined.

(** ** What [main] keeps *)

Lemma slice_to_firstn {A : Type} (l : list A) (n : Z) :
  n <> 0 ->
  slice_to l n = firstn (Z.to_nat (kept (Some n) (Z.of_nat (length l)))) l.
Proof.
  intros Hn. unfold slice_to, kept.
  destruct (n =? 0) eqn:E0; [lia | ].
  destruct (n <? 0) eqn:E.
  - f_equal. lia.
  - destruct (Z.le_gt_cases n (Z.of_nat (length l))) as [Hle | Hgt].
    + rewrite Z.min_l by lia. reflexivity.
    + rewrite Z.min_r by lia. rewrite Nat2Z.id.
      rewrite firstn_all. apply firstn_all2. lia.
Qed.

Lemma sort_by_id_length (l : list ExtractedPair) : length (sort_by_id l) = length l.
Proof. symmetry. apply Permutation_length, sort_by_id_perm. Qed.

Lemma surviving_firstn (args : options) (items : list ExtractedPair) :
  surviving args items
  = firstn (Z.to_nat (kept (max_items args) (Z.of_nat (length items))))
      (if sort args then sort_by_id items else items).
Proof.
  unfold surviving.
  assert (Hlen : length (if sort args then sort_by_id items else items) = length items)
    by (destruct (sort args); [apply sort_by_id_length | reflexivity]).
  set (sorted := if sort args then sort_by_id items else items) in *.
  destruct (max_items args) as [n | ].
  - destruct (n =? 0) eqn:E.
    + unfold kept. rewrite E, Nat2Z.id, <- Hlen. symmetry. apply firstn_all.
    + rewrite slice_to_firstn by lia. rewrite Hlen. reflexivity.
  - unfold kept. rewrite Nat2Z.id, <- Hlen. symmetry. apply firstn_all.
Qed.

Lemma kept_bounds (m : option Z) (len : Z) : 0 <= len -> 0 <= kept m len <= len.
Proof.
  intros H. unfold kept. destruct m as [n | ]; [ | lia].
  destruct (n =? 0) eqn:E0; [lia | ]. destruct (n <? 0) eqn:E; lia.
Qed.

(** X7. Whatever [max_items] is, the records of the output are those of a
    prefix of the (possibly sorted) pairs, in order, and [count] tells its
    length: all [len] pairs when [max_items] is unset or 0, [min(n, len)]
    for a positive [n], and [max(0, len + n)] for a negative one, which
    drops the last [-n] pairs. *)
Theorem main_keeps_prefix (B : builtins) (data : pyval) (args : options)
    (items : list ExtractedPair) (doc : OutputDocument) :
  extract_items B data = Ok items ->
  main B data args = Ok doc ->
  let sorted := if sort args then sort_by_id items else items in
  let k := kept (max_items args) (Z.of_nat (length items)) in
  count doc = k
  /\ map rec_id (embeddings doc) = firstn (Z.to_nat k) (map pair_id sorted).
Proof.
  intros He H sorted k. apply main_ok_inv in H.
  destruct H as (items' & rs & He' & _ & Hrs & ->).
  rewrite He in He'. inversion He'. subst items'.
  pose proof (process_items_ids B args _ rs Hrs) as Hids.
  rewrite surviving_firstn in Hids. fold sorted k in Hids.
  split.
  - simpl. apply (f_equal (@length _)) in Hids.
    rewrite !length_map, length_firstn in Hids. rewrite Hids.
    assert (Hlen : length sorted = length items)
      by (unfold sorted; destruct (sort args); [apply sort_by_id_length | reflexivity]).
    pose proof (kept_bounds (max_items args) (Z.of_nat (length items)) ltac:(lia)) as Hk.
    fold k in Hk. rewrite Hlen. lia.
  - simpl. rewrite Hids. symmetry. apply firstn_map.
Qed.

Lemma main_keeps_prefix_witness :
  count {| version := 1; dimension := 2; count := 1; embeddings := [bob_record] |}
  = kept (Some (-1)) 2
  /\ map rec_id [bob_record] = firstn (Z.to_nat (kept (Some (-1)) 2)) ["bob"; "alice"].
Proof.
  exact (main_keeps_prefix sample_builtins bob_alice
           {| precision := 6; max_items := Some (-1); sort := false; normalize := false |}
           [bob_pair; alice_pair]
           {| version := 1; dimension := 2; count := 1; embeddings := [bob_record] |}
           eq_refl ltac:(vm_compute; reflexivity)).
Defined.

(** ** The order of the output *)

Lemma StronglySorted_firstn {A : Type} (R : A -> A -> Prop) (n : nat) (l : list A) :
  StronglySorted R l -> StronglySorted R (firstn n l).
Proof.
  intros H. revert n. induction H as [ | x l _ IH Hx]; intros n.
  - rewrite firstn_nil. constructor.
  - destruct n as [ | n]; simpl; constructor.
    + apply IH.
    + rewrite <- (firstn_skipn n l) in Hx. apply Forall_app in Hx. apply Hx.
Qed.

Lemma processed_sorted (B : builtins) (args : options) (items : list ExtractedPair)
    (rs : list CanonicalRecord) :
  list_comp (process_item B args) items = Ok rs ->
  StronglySorted id_le items -> StronglySorted rec_le rs.
Proof.
  intros H. apply list_comp_ok in H.
  induction H as [ | it r items rs Hr Hrs IH]; intros Hs; [constructor | ].
  inversion Hs as [ | ? ? Hs' Hit]; subst. constructor; [apply IH, Hs' | ].
  clear IH Hs Hs'. induction Hrs as [ | it' r' items rs Hr' _ IH]; [constructor | ].
  inversion Hit; subst. constructor; [ | apply IH; assumption].
  unfold rec_le, id_le in *.
  rewrite (process_item_id B _ _ _ Hr), (process_item_id B _ _ _ Hr'). assumption.
Qed.

(** X8. With [--sort], the records of every document that [main] returns stand
    in non-decreasing order of their identifiers, whatever [max_items] is. *)
Theorem main_sorted_output (B : builtins) (data : pyval) (args : options)
    (doc : OutputDocument) :
  sort args = true ->
  main B data args = Ok doc ->
  StronglySorted rec_le (embeddings doc).
Proof.
  intros Hs H. apply main_ok_inv in H.
  destruct H as (items & rs & _ & _ & Hrs & ->). simpl.
  apply (processed_sorted B args _ rs Hrs).
  rewrite surviving_firstn, Hs. apply StronglySorted_firstn, sort_by_id_sorted.
Qed.

Lemma main_sorted_output_witness :
  StronglySorted rec_le [alice_record; bob_record].
Proof.
  exact (main_sorted_output sample_builtins bob_alice (sorted_capped 5)
           {| version := 1; dimension := 2; count := 2;
              embeddings := [alice_record; bob_record] |}
           eq_refl ltac:(vm_compute; reflexivity)).
Defined.



Lemma surviving_keeps_all (args : options) (items : list ExtractedPair) :
  keeps_all args = true ->
  surviving args items = if sort args then sort_by_id items else items.
Proof.
  unfold keeps_all, surviving. destruct (max_items args) as [n | ]; [ | reflexivity].
  intros ->. reflexivity.
Qed.



(** ** The outcomes of [main] *)

(** X10. [main] ends in exactly one of four ways: with the error of
    [extract_items]; with [sys.exit(3)] when no pair was extracted; with the
    error of the first kept pair whose processing fails, the pairs before it
    having been processed and no document being returned; or with a
    document, when every kept pair is processed.  A pair that [max_items]
    cuts off is never processed and cannot make the run fail. *)
Theorem main_outcomes (B : builtins) (data : pyval) (args : options) :
  (forall e,
      main B data args = Raise e <->
      extract_items B data = Raise e
      \/ (extract_items B data = Ok [] /\ e = no_embeddings)
      \/ exists items pre it post,
          extract_items B data = Ok items /\ items <> []
          /\ surviving args items = pre ++ it :: post
          /\ Forall (fun it' => exists r, process_item B args it' = Ok r) pre
          /\ process_item B args it = Raise e)
  /\ ((exists doc, main B data args = Ok doc) <->
      exists items,
        extract_items B data = Ok items /\ items <> []
        /\ Forall (fun it => exists r, process_item B args it = Ok r)
             (surviving args items)).
Proof.
  rewrite main_eq. split.
  - intros e. destruct (extract_items B data) as [items | e0]; cbn [bind].
    + destruct items as [ | it0 items]; cbn [is_nil].
      * split.
        -- intros H. inversion H. right. left. auto.
        -- intros [H | [(_ & ->) | (items & pre & it & post & H & Hne & _)]];
             [discriminate | reflexivity | ].
           inversion H. congruence.
      * split.
        -- intros H. apply bind_raise in H. destruct H as [H | (rs & _ & H)];
             [ | discriminate].
           apply list_comp_raise in H. destruct H as (pre & it & post & Hs & Hpre & Hit).
           right. right. exists (it0 :: items), pre, it, post.
           repeat split; try assumption. discriminate.
        -- intros [H | [(H & _) | (items' & pre & it & post & H & _ & Hs & Hpre & Hit)]];
             [discriminate | discriminate | ].
           inversion H. subst items'.
           assert (E : list_comp (process_item B args) (surviving args (it0 :: items))
                       = Raise e)
             by (apply list_comp_raise; exists pre, it, post; auto).
           rewrite E. reflexivity.
    + split.
      * intros H. inversion H. left. reflexivity.
      * intros [H | [(H & _) | (items & pre & it & post & H & _)]];
          [inversion H; reflexivity | discriminate | discriminate].
  - destruct (extract_items B data) as [items | e0]; cbn [bind].
    + destruct items as [ | it0 items]; cbn [is_nil].
      * split; [intros (doc & H); discriminate | ].
        intros (items & H & Hne & _). inversion H. congruence.
      * split.
        -- intros (doc & H). apply bind_ok in H. destruct H as (rs & Hrs & _).
           exists (it0 :: items). split; [reflexivity | split; [discriminate | ]].
           apply list_comp_ok in Hrs. clear - Hrs.
           induction Hrs as [ | it r l rs Hr _ IH]; constructor; [ | exact IH].
           exists r. exact Hr.
        -- intros (items' & H & _ & Hall). inversion H. subst items'.
           destruct (list_comp_defined _ _ Hall) as (rs & Hrs).
           exists (document_of rs). rewrite Hrs. reflexivity.
    + split; [intros (doc & H); discriminate | ].
      intros (items & H & _). discriminate.
Qed.

(** ** Reading back the records of a document *)

Lemma sort_by_id_sorted_id (l : list ExtractedPair) :
  StronglySorted id_le l -> sort_by_id l = l.
Proof.
  induction 1 as [ | x l _ IH Hx]; [reflexivity | ].
  cbn [sort_by_id]. rewrite IH. destruct l as [ | y l]; [reflexivity | ].
  cbn [insert_by_id]. inversion Hx as [ | ? ? Hxy _]; subst.
  unfold id_le in Hxy. rewrite Hxy. reflexivity.
Qed.

Lemma coerce_vector_floats (B : builtins) (v : list float) :
  coerce_vector B (floats v) = Ok v.
Proof.
  unfold floats, coerce_vector.
  induction v as [ | x v IH]; [reflexivity | ].
  cbn [map list_comp py_float bind]. rewrite IH. reflexivity.
Qed.

Lemma extract_element_record (B : builtins) (acc : list ExtractedPair) (r : CanonicalRecord) :
  rec_id r <> EmptyString ->
  extract_element B acc (record_as_element r)
  = Ok (acc ++ [{| pair_id := rec_id r; pair_vector := floats (rec_vector r) |}]).
Proof.
  intros Hid. unfold record_as_element.
  apply (extract_element_resolved B acc _ (PStr (rec_id r)) (floats (rec_vector r))).
  - apply (id_by_id [(PStr "id", PStr (rec_id r)); (PStr "vector", floats (rec_vector r))]
             (length acc)).
    unfold is_true. cbn. destruct (rec_id r); [congruence | reflexivity].
  - apply (vector_by_vector
             [(PStr "id", PStr (rec_id r)); (PStr "vector", floats (rec_vector r))]).
    reflexivity.
Qed.

Lemma extract_sequence_records (B : builtins) (acc : list ExtractedPair)
    (rs : list CanonicalRecord) :
  Forall (fun r => rec_id r <> EmptyString) rs ->
  extract_sequence B acc (map record_as_element rs)
  = Ok (acc ++ map (fun r => {| pair_id := rec_id r;
                               pair_vector := floats (rec_vector r) |}) rs).
Proof.
  intros H. revert acc.
  induction H as [ | r rs Hr _ IH]; intros acc; cbn [map extract_sequence].
  - rewrite app_nil_r. reflexivity.
  - rewrite (extract_element_record B acc r Hr). cbn [bind].
    rewrite IH, <- app_assoc. reflexivity.
Qed.

(** X11. The records of a document, given back as a sequence of mappings
    [{"id": ..., "vector": [...]}], are extracted as they are, one pair per
    record and in order, provided no identifier is empty (an empty ["id"]
    is false and would be replaced). *)
Theorem extract_items_of_records (B : builtins) (rs : list CanonicalRecord) :
  Forall (fun r => rec_id r <> EmptyString) rs ->
  extract_items B (PList (map record_as_element rs))
  = Ok (map (fun r => {| pair_id := rec_id r; pair_vector := floats (rec_vector r) |}) rs).
Proof.
  intros H. unfold extract_items.
  rewrite (extract_sequence_records B [] rs H). reflexivity.
Qed.

Lemma extract_items_of_records_witness :
  Forall (fun r => rec_id r <> EmptyString) [bob_record; alice_record]
  /\ extract_items sample_builtins (PList (map record_as_element [bob_record; alice_record]))
     = Ok [bob_pair; alice_pair].
Proof.
  assert (H : Forall (fun r => rec_id r <> EmptyString) [bob_record; alice_record])
    by (repeat constructor; discriminate).
  split; [exact H | ].
  exact (extract_items_of_records sample_builtins _ H).
Defined.

Lemma records_sorted_as_pairs (rs : list CanonicalRecord) :
  StronglySorted rec_le rs ->
  StronglySorted id_le
    (map (fun r => {| pair_id := rec_id r; pair_vector := floats (rec_vector r) |}) rs).
Proof.
  induction 1 as [ | r rs _ IH Hr]; cbn [map]; constructor; [exact IH | ].
  rewrite Forall_map. exact Hr.
Qed.

(** X12. Converting the records of a document again reproduces the document:
    given back as a sequence of mappings [{"id": ..., "vector": [...]}],
    records with non-empty identifiers whose vectors rounding leaves
    unchanged give, without normalisation or truncation, the document of
    the same records, provided they stand in the order of their identifiers
    when [--sort] is set. *)
Theorem main_reads_back (B : builtins) (rs : list CanonicalRecord) (args : options) :
  rs <> [] ->
  Forall (fun r => rec_id r <> EmptyString) rs ->
  Forall (fun r => round_vector (rec_vector r) (precision args) = Ok (rec_vector r)) rs ->
  normalize args = false ->
  keeps_all args = true ->
  (sort args = true -> StronglySorted rec_le rs) ->
  main B (PList (map record_as_element rs)) args = Ok (document_of rs).
Proof.
  intros Hne Hid Hfix Hn Hk Hs.
  rewrite main_eq. unfold extract_items.
  rewrite (extract_sequence_records B [] rs Hid). cbn [bind app].
  destruct rs as [ | r0 rs0] eqn:Ers; [congruence | ]. cbn [map is_nil]. rewrite <- Ers in *.
  change ({| pair_id := rec_id r0; pair_vector := floats (rec_vector r0) |}
          :: map (fun r => {| pair_id := rec_id r; pair_vector := floats (rec_vector r) |}) rs0)
    with (map (fun r => {| pair_id := rec_id r; pair_vector := floats (rec_vector r) |})
            (r0 :: rs0)).
  rewrite <- Ers. clear Ers Hne r0 rs0.
  rewrite (surviving_keeps_all args _ Hk).
  assert (E : (if sort args
               then sort_by_id
                      (map (fun r => {| pair_id := rec_id r;
                                        pair_vector := floats (rec_vector r) |}) rs)
               else map (fun r => {| pair_id := rec_id r;
                                     pair_vector := floats (rec_vector r) |}) rs)
              = map (fun r => {| pair_id := rec_id r;
                                 pair_vector := floats (rec_vector r) |}) rs).
  { destruct (sort args); [ | reflexivity].
    apply sort_by_id_sorted_id, records_sorted_as_pairs, Hs. reflexivity. }
  rewrite E. clear E Hs Hk Hid.
  assert (Hrs : list_comp (process_item B args)
                  (map (fun r => {| pair_id := rec_id r;
                                    pair_vector := floats (rec_vector r) |}) rs)
                = Ok rs).
  { induction Hfix as [ | r rs Hr _ IH]; [reflexivity | ].
    cbn [map list_comp]. rewrite IH. unfold process_item at 1. cbn [pair_vector pair_id].
    rewrite coerce_vector_floats, Hn. cbn [bind]. rewrite Hr. cbn [bind].
    destruct r. reflexivity. }
  rewrite Hrs. reflexivity.
Qed.

Lemma main_reads_back_witness :
  main sample_builtins (PList (map record_as_element [alice_record; bob_record]))
    (sorted_capped 0)
  = Ok (document_of [alice_record; bob_record]).
Proof.
  apply (main_reads_back sample_builtins [alice_record; bob_record] (sorted_capped 0)).
  - discriminate.
  - repeat constructor; discriminate.
  - repeat constructor; vm_compute; reflexivity.
  - reflexivity.
  - reflexivity.
  - intros _. repeat constructor.
Defined.

(** ** NaN in [normalize_vector] *)

Lemma Prim2SF_nan_inv (x : float) : Prim2SF x = S754_nan -> x = nan.
Proof. intros H. rewrite <- (SF2Prim_Prim2SF x), H. reflexivity. Qed.

Lemma add_nan_l (y : float) : (nan + y)%float = nan.
Proof.
  apply Prim2SF_nan_inv. rewrite add_spec.
  change (Prim2SF nan) with S754_nan. reflexivity.
Qed.

Lemma add_nan_r (x : float) : (x + nan)%float = nan.
Proof.
  apply Prim2SF_nan_inv. rewrite add_spec.
  change (Prim2SF nan) with S754_nan. destruct (Prim2SF x); reflexivity.
Qed.

Lemma div_nan_r (x : float) : (x / nan)%float = nan.
Proof.
  apply Prim2SF_nan_inv. rewrite div_spec.
  change (Prim2SF nan) with S754_nan. destruct (Prim2SF x); reflexivity.
Qed.

Lemma ltb_nan_l (y : float) : (nan <? y)%float = false.
Proof. rewrite ltb_spec. change (Prim2SF nan) with S754_nan. reflexivity. Qed.

Lemma sum_squares_from_nan (v : list float) :
  fold_left (fun acc x => (acc + x * x)%float) v nan = nan.
Proof.
  induction v as [ | x v IH]; [reflexivity | ].
  cbn [fold_left]. rewrite add_nan_l. exact IH.
Qed.

Lemma sum_squares_nan (v : list float) : In nan v -> sum_squares v = nan.
Proof.
  unfold sum_squares. generalize 0%float as acc.
  induction v as [ | x v IH]; intros acc H; [destruct H | ].
  cbn [fold_left]. destruct H as [-> | H].
  - change (nan * nan)%float with nan. rewrite add_nan_r. apply sum_squares_from_nan.
  - apply IH, H.
Qed.

(** X13. One NaN component spreads to the whole vector: [normalize_vector]
    returns a vector of the same length whose components are all NaN,
    whatever [eps] is, the norm being NaN and no comparison with it true.
    ([nan] is the one NaN of [PrimFloat.float]: see [Prim2SF_nan_inv].) *)
Theorem normalize_vector_spreads_nan (v : list float) (eps : float) :
  In nan v ->
  normalize_vector v eps = Ok (map (fun _ => nan) v).
Proof.
  intros H. unfold normalize_vector, euclidean_norm.
  rewrite (sum_squares_nan v H). change (sqrt nan) with nan.
  rewrite ltb_nan_l.
  rewrite (list_comp_ext _ (fun x => Ok ((fun _ => nan) x))).
  - apply list_comp_pure.
  - intros x _. unfold float_truediv. change (nan =? 0)%float with false.
    rewrite div_nan_r. reflexivity.
Qed.

Lemma normalize_vector_spreads_nan_witness :
  In nan [3; nan; 4]%float
  /\ normalize_vector [3; nan; 4]%float default_eps = Ok [nan; nan; nan].
Proof.
  assert (H : In nan [3; nan; 4]%float) by (right; left; reflexivity).
  split; [exact H | ].
  exact (normalize_vector_spreads_nan [3; nan; 4]%float default_eps H).
Defined.

(** ** The range of the precision *)

Lemma rounds_zero_checked : forallb rounds_zero (map N.of_nat (seq 0 309)) = true.
Proof. vm_compute. reflexivity. Qed.

Lemma round_component_zero (p : N) :
  (p <= 308)%N -> round_component (10 ^ Z.of_N p) 0%float = Ok 0%float.
Proof.
  intros Hp. pose proof rounds_zero_checked as C. rewrite forallb_forall in C.
  assert (Hin : In p (map N.of_nat (seq 0 309))).
  { apply in_map_iff. exists (N.to_nat p). split; [lia | ]. apply in_seq. lia. }
  specialize (C p Hin). unfold rounds_zero in C.
  destruct (round_component (10 ^ Z.of_N p) 0%float) as [y | ]; [ | discriminate].
  apply Leibniz.eqb_spec in C. rewrite C. reflexivity.
Qed.

Lemma pow10_beyond_range (p : N) : (309 <= p)%N -> 2 ^ 1024 <= 10 ^ Z.of_N p.
Proof.
  intros Hp. apply Z.le_trans with (10 ^ 309).
  - apply Z.leb_le. vm_compute. reflexivity.
  - apply Z.pow_le_mono_r; lia.
Qed.

(** An [int] of [2^1024] or more has no float. *)
Lemma float_of_int_overflow (z : Z) : 2 ^ 1024 <= z -> float_of_int z = Raise OverflowError.
Proof.
  intros Hz. assert (Hpos : 0 < 2 ^ 1024) by (apply pow2_pos; lia).
  destruct z as [ | m | m]; try lia.
  unfold float_of_int, binary_normalize, binary_round.
  pose proof (digits2_pos_bounds m) as HD.
  set (D := Zpos (digits2_pos m)) in *.
  assert (HD1 : 1025 <= D).
  { destruct (Z.le_gt_cases 1025 D) as [ | Hlt]; [assumption | exfalso].
    assert (2 ^ D <= 2 ^ 1024) by (apply Z.pow_le_mono_r; lia). lia. }
  rewrite fexp_normal by lia. unfold shl_align.
  destruct (D + 0 - 53 - 0) as [ | q | q] eqn:Eq; try lia.
  destruct (binary_round_aux_normal false m 0 loc_Exact (Zpos m) 1) as
    (m' & c & Hr & _ & Hc & _); fold D; try lia.
  - apply locates_exact. lia.
  - rewrite Hr. fold D.
    destruct (0 + (D - 53) + c <=? 971) eqn:E; [apply Z.leb_le in E; lia | reflexivity].
Qed.

(** X14. The precision has a range: up to 308, [round_vector] sends a vector of
    zeros to itself; from 309 on, [10 ** precision] has no float and every
    vector that is not empty fails with [OverflowError], at its first
    component. *)
Theorem round_vector_precision_range (p : N) :
  ((p <= 308)%N ->
   forall n, round_vector (repeat 0%float n) p = Ok (repeat 0%float n))
  /\ ((309 <= p)%N ->
      forall x v, round_vector (x :: v) p = Raise OverflowError).
Proof.
  split.
  - intros Hp n. unfold round_vector. induction n as [ | n IH]; [reflexivity | ].
    cbn [repeat list_comp]. rewrite (round_component_zero p Hp), IH. reflexivity.
  - intros Hp x v. unfold round_vector. cbn [list_comp].
    unfold round_component, float_mul_int.
    rewrite (float_of_int_overflow _ (pow10_beyond_range p Hp)). reflexivity.
Qed.
